(** * TaskFlow: the in-memory storage engine and the query layer

    A shallow embedding of
    - the storage module: the class [MemStorage] (users and todos kept in
      two JavaScript [Map]s) and its nine methods;
    - the shared schema: the record shapes [User], [Todo], [InsertTodo],
      [UpdateTodo], the enumeration [Priority] and [updateTodoSchema];
    - [client/src/pages/home.tsx]: the table [priorityOrder] and the memoised
      view [filteredAndSortedTodos].

    Every method of [MemStorage] is [async] but awaits nothing: it runs to
    completion in one step and resolves its promise at once.  A method is
    therefore a function from the store before the call to the store after
    it, paired with the returned value. *)

From Stdlib Require Import List String Ascii Bool ZArith Lia Arith.
From Stdlib Require Import Sorting.Permutation Sorting.Sorted.
From Stdlib Require Import DecimalString.
Import ListNotations.

Local Open Scope string_scope.
Local Open Scope list_scope.

(* ===================================================================== *)
(** * JavaScript values used by the code *)
(* ===================================================================== *)

(** A JavaScript string is a sequence of code units; [string] holds one
    character per code unit.  [===] on two strings compares their contents. *)

(** Truthiness of a string: only the empty string is falsy. *)
Definition truthy (s : string) : bool :=
  match s with
  | EmptyString => false
  | String _ _ => true
  end.

(** [a ?? b]: [b] when [a] is [null] or [undefined], else [a].  [None] stands
    for a missing (or nullish) operand. *)
Definition nullish {A : Type} (a : option A) (b : A) : A :=
  match a with
  | Some x => x
  | None => b
  end.

Notation "a ?? b" := (nullish a b) (at level 45, left associativity).

(** [s.includes(q)]: [q] occurs in [s] as a contiguous run of code units. *)
Fixpoint includes (s q : string) : bool :=
  String.prefix q s ||
  match s with
  | EmptyString => false
  | String _ s' => includes s' q
  end.

(** The string methods whose result depends on the Unicode tables or on the
    host locale are an interface of the platform. *)
Class JSStringOps : Type := {
  trim : string -> string;
  toLowerCase : string -> string;
  localeCompare : string -> string -> Z
}.

(** ** [Map]: a keyed collection that remembers insertion order

    A [Map<string, V>] is the list of its entries, oldest first.  No key
    occurs twice ([Map_wf]). *)

Section JsMap.
Context {V : Type}.

Definition Map : Type := list (string * V).

Definition Map_new : Map := [].

(** [m.get(k)] *)
Fixpoint Map_get (k : string) (m : Map) : option V :=
  match m with
  | [] => None
  | (k', v) :: m' => if String.eqb k' k then Some v else Map_get k m'
  end.

(** [m.set(k, v)]: an existing entry keeps its place and takes the new
    value; a new key is appended. *)
Fixpoint Map_set (k : string) (v : V) (m : Map) : Map :=
  match m with
  | [] => [(k, v)]
  | (k', v') :: m' =>
      if String.eqb k' k then (k, v) :: m' else (k', v') :: Map_set k v m'
  end.

(** [m.delete(k)]: the map without the entry for [k], and whether there
    was one. *)
Fixpoint Map_delete (k : string) (m : Map) : Map * bool :=
  match m with
  | [] => ([], false)
  | (k', v) :: m' =>
      if String.eqb k' k then (m', true)
      else let '(r, b) := Map_delete k m' in ((k', v) :: r, b)
  end.

(** [m.keys()] and [m.values()], in insertion order. *)
Definition Map_keys (m : Map) : list string := map fst m.
Definition Map_values (m : Map) : list V := map snd m.

Definition Map_wf (m : Map) : Prop := NoDup (Map_keys m).
End JsMap.

Arguments Map V : clear implicits.

(** ** [Set<string>]: the members in insertion order, each once *)

Definition JsSet : Type := list string.

Definition Set_new : JsSet := [].

Definition Set_has (x : string) (s : JsSet) : bool :=
  existsb (String.eqb x) s.

Definition Set_add (x : string) (s : JsSet) : JsSet :=
  if Set_has x s then s else s ++ [x].

(** [Array.from(s)] *)
Definition Array_from (s : JsSet) : list string := s.

(** ** [Array.prototype.sort]

    The language fixes the result of [sort] for a consistent comparator: the
    elements in ascending order of the comparator, elements that compare
    equal in their original order (the sort is stable).  That list is
    computed here by insertion from the right: each element goes in front of
    the first element it does not exceed.  [Array_sort_unique] below shows
    that no other list is ascending and stable, so the choice of algorithm
    does not show. *)

Section ArraySort.
Context {A : Type} (comparefn : A -> A -> Z).

Fixpoint sort_insert (x : A) (l : list A) : list A :=
  match l with
  | [] => [x]
  | y :: l' =>
      if (comparefn x y <=? 0)%Z then x :: y :: l'
      else y :: sort_insert x l'
  end.

Fixpoint Array_sort (l : list A) : list A :=
  match l with
  | [] => []
  | x :: l' => sort_insert x (Array_sort l')
  end.

(** [x] and [y] compare equal. *)
Definition same_rank (x y : A) : bool := (comparefn x y =? 0)%Z.

(** A consistent comparator: it ranks the elements. *)
Record Consistent : Prop := {
  cmp_refl : forall a, comparefn a a = 0%Z;
  cmp_flip : forall a b, (comparefn a b < 0 <-> 0 < comparefn b a)%Z;
  cmp_trans : forall a b c,
    (comparefn a b <= 0 -> comparefn b c <= 0 -> comparefn a c <= 0)%Z
}.
End ArraySort.

(** With no comparator, [sort] compares strings code unit by code unit. *)
Definition defaultCompare (a b : string) : Z :=
  match String.compare a b with
  | Lt => (-1)%Z
  | Eq => 0%Z
  | Gt => 1%Z
  end.

(* ===================================================================== *)
(** * The shared schema *)
(* ===================================================================== *)

(** [priorityEnum = z.enum(["low", "medium", "high"])] *)
Inductive Priority : Type := low | medium | high.

(** [User = typeof users.$inferSelect] *)
Record User : Type := mkUser {
  user_id : string;
  username : string;
  password : string
}.

(** [InsertUser]: [insertUserSchema] picks [username] and [password]. *)
Record InsertUser : Type := mkInsertUser {
  ins_username : string;
  ins_password : string
}.

(** [Todo = typeof todos.$inferSelect].  The column [priority] is text; the
    schemas only let the three values of [Priority] in, and the client reads
    it [as Priority]. *)
Record Todo : Type := mkTodo {
  id : string;
  text : string;
  completed : bool;
  priority : Priority;
  category : option string
}.

(** [InsertTodo]: [id] is omitted; [completed], [priority] and [category]
    may be missing ([None]); [category] may also be [null] ([Some None]). *)
Record InsertTodo : Type := mkInsertTodo {
  ins_text : string;
  ins_completed : option bool;
  ins_priority : option Priority;
  ins_category : option (option string)
}.

(** [UpdateTodo]: every field of a todo made optional, [id] omitted.

    An object type of TypeScript is open: a value of type [UpdateTodo] may
    carry own properties the type does not mention, and [{...updates}] copies
    them like the others.  The one such property a [Todo] can show is [id],
    so the payload keeps a slot for it; [upd_id u = None] for every payload
    that has the declared shape only, among them every output of
    [updateTodoSchema], which drops the keys it does not declare. *)
Record UpdateTodo : Type := mkUpdateTodo {
  upd_id : option string;
  upd_text : option string;
  upd_completed : option bool;
  upd_priority : option Priority;
  upd_category : option (option string)
}.

(** The keys of a todo, and the type of the value under each key. *)
Inductive TodoKey : Type := Kid | Ktext | Kcompleted | Kpriority | Kcategory.

Definition TodoVal (k : TodoKey) : Type :=
  match k with
  | Kid => string
  | Ktext => string
  | Kcompleted => bool
  | Kpriority => Priority
  | Kcategory => option string
  end.

(** [todo[k]] *)
Definition Todo_get (k : TodoKey) (t : Todo) : TodoVal k :=
  match k with
  | Kid => id t
  | Ktext => text t
  | Kcompleted => completed t
  | Kpriority => priority t
  | Kcategory => category t
  end.

(** [updates[k]], [None] when the payload has no own property [k]. *)
Definition UpdateTodo_get (k : TodoKey) (u : UpdateTodo) : option (TodoVal k) :=
  match k with
  | Kid => upd_id u
  | Ktext => upd_text u
  | Kcompleted => upd_completed u
  | Kpriority => upd_priority u
  | Kcategory => upd_category u
  end.

(** One property of [{ ...todo, ...updates }]: the value [updates] has
    under the key when it has the key ([Some v]), the value of [todo]
    otherwise. *)
Definition override {A : Type} (old : A) (new : option A) : A :=
  match new with
  | Some v => v
  | None => old
  end.

(** [{ ...todo, ...updates }] *)
Definition spread (todo : Todo) (updates : UpdateTodo) : Todo :=
  {| id := override (id todo) (upd_id updates);
     text := override (text todo) (upd_text updates);
     completed := override (completed todo) (upd_completed updates);
     priority := override (priority todo) (upd_priority updates);
     category := override (category todo) (upd_category updates) |}.

(** [updateTodoSchema.safeParse(body).data] for a body that passes: the
    schema is the insert schema made partial with [id] omitted, and parsing
    an object keeps the keys the schema declares and drops the others. *)
Definition updateTodoSchema (body : UpdateTodo) : UpdateTodo :=
  {| upd_id := None;
     upd_text := upd_text body;
     upd_completed := upd_completed body;
     upd_priority := upd_priority body;
     upd_category := upd_category body |}.

(* ===================================================================== *)
(** * The storage module: [MemStorage] *)
(* ===================================================================== *)

Record MemStorage : Type := mkMemStorage {
  users : Map User;
  todos : Map Todo
}.

(** [constructor()] *)
Definition MemStorage_new : MemStorage :=
  {| users := Map_new; todos := Map_new |}.

Definition set_users (f : Map User -> Map User) (st : MemStorage) : MemStorage :=
  {| users := f (users st); todos := todos st |}.

Definition set_todos (f : Map Todo -> Map Todo) (st : MemStorage) : MemStorage :=
  {| users := users st; todos := f (todos st) |}.

Definition getUser (i : string) (st : MemStorage) : option User :=
  Map_get i (users st).

Definition getUserByUsername (name : string) (st : MemStorage) : option User :=
  find (fun user => String.eqb (username user) name) (Map_values (users st)).

(** [uuid] is the value [randomUUID()] returns in this call. *)
Definition createUser (uuid : string) (insertUser : InsertUser)
    (st : MemStorage) : MemStorage * User :=
  let user := {| user_id := uuid;
                 username := ins_username insertUser;
                 password := ins_password insertUser |} in
  (set_users (Map_set uuid user) st, user).

Definition getAllTodos (st : MemStorage) : list Todo :=
  Map_values (todos st).

Definition getTodo (i : string) (st : MemStorage) : option Todo :=
  Map_get i (todos st).

Definition createTodo (uuid : string) (insertTodo : InsertTodo)
    (st : MemStorage) : MemStorage * Todo :=
  let todo := {| id := uuid;
                 text := ins_text insertTodo;
                 completed := ins_completed insertTodo ?? false;
                 priority := ins_priority insertTodo ?? medium;
                 category := ins_category insertTodo ?? None |} in
  (set_todos (Map_set uuid todo) st, todo).

Definition updateTodo (i : string) (updates : UpdateTodo)
    (st : MemStorage) : MemStorage * option Todo :=
  match Map_get i (todos st) with
  | None => (st, None)
  | Some todo =>
      let updatedTodo := spread todo updates in
      (set_todos (Map_set i updatedTodo) st, Some updatedTodo)
  end.

Definition deleteTodo (i : string) (st : MemStorage) : MemStorage * bool :=
  let '(m, existed) := Map_delete i (todos st) in
  (set_todos (fun _ => m) st, existed).

(** The body of the loop of [getCategories]: a truthy category joins the
    set. *)
Definition add_category (categories : JsSet) (todo : Todo) : JsSet :=
  match category todo with
  | Some c => if truthy c then Set_add c categories else categories
  | None => categories
  end.

Definition getCategories (st : MemStorage) : list string :=
  let categories := Set_new in
  let todos := Map_values (todos st) in
  let categories := fold_left add_category todos categories in
  Array_sort defaultCompare (Array_from categories).

(** The stores the methods can build from the empty one. *)
Inductive Reachable : MemStorage -> Prop :=
| Reachable_new : Reachable MemStorage_new
| Reachable_createUser uuid fields st :
    Reachable st -> Reachable (fst (createUser uuid fields st))
| Reachable_createTodo uuid fields st :
    Reachable st -> Reachable (fst (createTodo uuid fields st))
| Reachable_updateTodo i updates st :
    Reachable st -> Reachable (fst (updateTodo i updates st))
| Reachable_deleteTodo i st :
    Reachable st -> Reachable (fst (deleteTodo i st)).

(** The shape of a store whose updates all had the declared shape: no key
    twice in either map, and each todo filed under its own [id]. *)
Definition Store_wf (st : MemStorage) : Prop :=
  Map_wf (users st) /\ Map_wf (todos st) /\
  forall k t, In (k, t) (todos st) -> id t = k.

(* ===================================================================== *)
(** * client/src/pages/home.tsx: the query layer *)
(* ===================================================================== *)

(** [type FilterType = "all" | "active" | "completed"] *)
Inductive FilterType : Type := F_all | F_active | F_completed.

(** [type SortType = "newest" | "oldest" | "priority" | "alphabetical"] *)
Inductive SortType : Type := S_newest | S_oldest | S_priority | S_alphabetical.

Definition priorityOrder (p : Priority) : Z :=
  match p with
  | high => 0
  | medium => 1
  | low => 2
  end%Z.

(** [t.category === categoryFilter]: [null] is strictly equal to no string. *)
Definition category_is (c : string) (t : Todo) : bool :=
  match category t with
  | Some c' => String.eqb c' c
  | None => false
  end.

Section QueryLayer.
Context {ops : JSStringOps}.

(** The three filters of [filteredAndSortedTodos], in the order the code
    applies them, then its sort. *)

Definition filter_status (flt : FilterType) (result : list Todo) : list Todo :=
  match flt with
  | F_active => filter (fun t => negb (completed t)) result
  | F_completed => filter (fun t => completed t) result
  | F_all => result
  end.

Definition filter_search (searchQuery : string) (result : list Todo) : list Todo :=
  if truthy (trim searchQuery) then
    let query := toLowerCase searchQuery in
    filter (fun t =>
              includes (toLowerCase (text t)) query ||
              match category t with
              | Some c => truthy c && includes (toLowerCase c) query
              | None => false
              end)
           result
  else result.

Definition filter_category (categoryFilter : string) (result : list Todo)
    : list Todo :=
  if negb (String.eqb categoryFilter "all") then
    filter (category_is categoryFilter) result
  else result.

(** The comparator handed to [result.sort]. *)
Definition compareTodos (sortBy : SortType) (a b : Todo) : Z :=
  match sortBy with
  | S_oldest => 0
  | S_priority => priorityOrder (priority a) - priorityOrder (priority b)
  | S_alphabetical => localeCompare (text a) (text b)
  | S_newest => 0
  end%Z.

Definition sort_result (sortBy : SortType) (result : list Todo) : list Todo :=
  let result := Array_sort (compareTodos sortBy) result in
  match sortBy with
  | S_newest => rev result
  | _ => result
  end.

Definition filteredAndSortedTodos (todos : list Todo) (flt : FilterType)
    (searchQuery : string) (sortBy : SortType) (categoryFilter : string)
    : list Todo :=
  let result := todos in
  let result := filter_status flt result in
  let result := filter_search searchQuery result in
  let result := filter_category categoryFilter result in
  sort_result sortBy result.
End QueryLayer.


Definition Priority_eqb (p q : Priority) : bool :=
  match p, q with
  | low, low | medium, medium | high, high => true
  | _, _ => false
  end.

(** [t.priority === p] *)
Definition has_priority (p : Priority) (t : Todo) : bool :=
  Priority_eqb (priority t) p.

(** ** An instance of the platform's string methods

    Enough of [trim], [toLowerCase] and [localeCompare] to run the query
    layer on ASCII text: letters ["A"].. ["Z"] are lowered, white space is
    the six ASCII blanks, and strings are compared code unit by code unit. *)

Definition ascii_toLower (c : ascii) : ascii :=
  let n := N_of_ascii c in
  if ((65 <=? n) && (n <=? 90))%N then ascii_of_N (n + 32) else c.

Fixpoint string_map (f : ascii -> ascii) (s : string) : string :=
  match s with
  | EmptyString => EmptyString
  | String c s' => String (f c) (string_map f s')
  end.

Definition is_space (c : ascii) : bool :=
  match N_of_ascii c with
  | 9 | 10 | 11 | 12 | 13 | 32 => true
  | _ => false
  end%N.

Fixpoint trim_start (s : string) : string :=
  match s with
  | EmptyString => EmptyString
  | String c s' => if is_space c then trim_start s' else s
  end.

Definition string_rev (s : string) : string :=
  string_of_list_ascii (rev (list_ascii_of_string s)).

Definition ascii_trim (s : string) : string :=
  string_rev (trim_start (string_rev (trim_start s))).

#[export] Instance ascii_ops : JSStringOps :=
  {| trim := ascii_trim;
     toLowerCase := string_map ascii_toLower;
     localeCompare := defaultCompare |}.

(* ===================================================================== *)
(** * More of the storage module *)
(* ===================================================================== *)

(** The stores the methods can build from the empty one when every update
    payload has the declared shape, as every payload that went through
    [updateTodoSchema] has. *)
Inductive ReachableDeclared : MemStorage -> Prop :=
| Declared_new : ReachableDeclared MemStorage_new
| Declared_createUser uuid fields st :
    ReachableDeclared st -> ReachableDeclared (fst (createUser uuid fields st))
| Declared_createTodo uuid fields st :
    ReachableDeclared st -> ReachableDeclared (fst (createTodo uuid fields st))
| Declared_updateTodo i updates st :
    upd_id updates = None ->
    ReachableDeclared st -> ReachableDeclared (fst (updateTodo i updates st))
| Declared_deleteTodo i st :
    ReachableDeclared st -> ReachableDeclared (fst (deleteTodo i st)).

(** One key of [{ ...first, ...second }] for two payloads. *)
Definition later {A : Type} (first second : option A) : option A :=
  match second with
  | Some v => Some v
  | None => first
  end.

(** [{ ...first, ...second }]: the payload that carries the keys of both,
    with the value of [second] where both have the key. *)
Definition spread_updates (first second : UpdateTodo) : UpdateTodo :=
  {| upd_id := later (upd_id first) (upd_id second);
     upd_text := later (upd_text first) (upd_text second);
     upd_completed := later (upd_completed first) (upd_completed second);
     upd_priority := later (upd_priority first) (upd_priority second);
     upd_category := later (upd_category first) (upd_category second) |}.

(* ===================================================================== *)
(** * The routes *)
(* ===================================================================== *)

(** The result of [schema.safeParse(req.body)]: the issues found, or the
    parsed data. *)
Inductive SafeParse (E A : Type) : Type :=
| ParseFailure (errors : E)
| ParseSuccess (data : A).

Arguments ParseFailure {E A} errors.
Arguments ParseSuccess {E A} data.

(** What a handler sends: [res.json(...)] with one of the shapes below, or
    [res.send()] with nothing. *)
Inductive ResBody (E : Type) : Type :=
| json_todos (l : list Todo)
| json_categories (l : list string)
| json_todo (t : Todo)
| json_message (message : string)
| json_invalid (message : string) (errors : E)
| no_body.

Arguments json_todos {E} l.
Arguments json_categories {E} l.
Arguments json_todo {E} t.
Arguments json_message {E} message.
Arguments json_invalid {E} message errors.
Arguments no_body {E}.

(** [res.json] without [res.status] answers 200. *)
Record Response (E : Type) : Type := mkResponse {
  status : Z;
  body : ResBody E
}.

Arguments mkResponse {E} status body.
Arguments status {E} r.
Arguments body {E} r.

(** The requests [registerRoutes] gives a handler to. *)
Inductive Request (B : Type) : Type :=
| GET_todos
| GET_categories
| GET_todo (i : string)
| POST_todo (reqBody : B)
| PATCH_todo (i : string) (reqBody : B)
| DELETE_todo (i : string).

Arguments GET_todos {B}.
Arguments GET_categories {B}.
Arguments GET_todo {B} i.
Arguments POST_todo {B} reqBody.
Arguments PATCH_todo {B} i reqBody.
Arguments DELETE_todo {B} i.

(** The handlers act on the one [storage] of the module.  No method of
    [MemStorage] throws, so the [catch] of a handler is never entered.  The
    two schemas come from a validation library: [insertTodoSchema.safeParse]
    and [updateTodoSchema.safeParse] are taken as they are given, over any
    type [B] of request bodies and any type [E] of issue lists. *)
Section Routes.
Context {B E : Type}.
Context (parseInsertTodo : B -> SafeParse E InsertTodo).
Context (parseUpdateTodo : B -> SafeParse E UpdateTodo).

(** [app.get("/api/todos")] *)
Definition get_api_todos (st : MemStorage) : MemStorage * Response E :=
  let todos := getAllTodos st in
  (st, mkResponse 200 (json_todos todos)).

(** [app.get("/api/categories")] *)
Definition get_api_categories (st : MemStorage) : MemStorage * Response E :=
  let categories := getCategories st in
  (st, mkResponse 200 (json_categories categories)).

(** [app.get("/api/todos/:id")] *)
Definition get_api_todos_id (i : string) (st : MemStorage)
    : MemStorage * Response E :=
  match getTodo i st with
  | None => (st, mkResponse 404 (json_message "Todo not found"))
  | Some todo => (st, mkResponse 200 (json_todo todo))
  end.

(** [app.post("/api/todos")]; [uuid] is what [randomUUID()] returns if the
    handler gets as far as [createTodo]. *)
Definition post_api_todos (uuid : string) (reqBody : B) (st : MemStorage)
    : MemStorage * Response E :=
  match parseInsertTodo reqBody with
  | ParseFailure errors =>
      (st, mkResponse 400 (json_invalid "Invalid todo data" errors))
  | ParseSuccess data =>
      let '(st', todo) := createTodo uuid data st in
      (st', mkResponse 201 (json_todo todo))
  end.

(** [app.patch("/api/todos/:id")] *)
Definition patch_api_todos_id (i : string) (reqBody : B) (st : MemStorage)
    : MemStorage * Response E :=
  match parseUpdateTodo reqBody with
  | ParseFailure errors =>
      (st, mkResponse 400 (json_invalid "Invalid update data" errors))
  | ParseSuccess data =>
      match updateTodo i data st with
      | (st', None) => (st', mkResponse 404 (json_message "Todo not found"))
      | (st', Some todo) => (st', mkResponse 200 (json_todo todo))
      end
  end.

(** [app.delete("/api/todos/:id")] *)
Definition delete_api_todos_id (i : string) (st : MemStorage)
    : MemStorage * Response E :=
  let '(st', deleted) := deleteTodo i st in
  if deleted then (st', mkResponse 204 no_body)
  else (st', mkResponse 404 (json_message "Todo not found")).

(** The application after [registerRoutes]: each request goes to its
    handler. *)
Definition app_handle (uuid : string) (req : Request B) (st : MemStorage)
    : MemStorage * Response E :=
  match req with
  | GET_todos => get_api_todos st
  | GET_categories => get_api_categories st
  | GET_todo i => get_api_todos_id i st
  | POST_todo reqBody => post_api_todos uuid reqBody st
  | PATCH_todo i reqBody => patch_api_todos_id i reqBody st
  | DELETE_todo i => delete_api_todos_id i st
  end.

(** The store after a run of requests, each with the uuid drawn for it. *)
Fixpoint app_run (reqs : list (string * Request B)) (st : MemStorage)
    : MemStorage :=
  match reqs with
  | [] => st
  | (uuid, req) :: reqs' => app_run reqs' (fst (app_handle uuid req st))
  end.
End Routes.

(* ===================================================================== *)
(** * client/src/pages/home.tsx: the rest of the page *)
(* ===================================================================== *)

(** [String(n)] for an integer [n], as a template literal prints it. *)
Definition Number_toString (n : Z) : string :=
  NilZero.string_of_int (Z.to_int n).

(** The double quote, which a string of this file cannot hold. *)
Definition dquote : string := String "034"%char EmptyString.

(** [v || undefined] and [v || null] for [v : string | undefined]: a falsy
    string gives way like a missing one. *)
Definition or_nothing (v : option string) : option string :=
  match v with
  | Some s => if truthy s then Some s else None
  | None => None
  end.

(** [AddTaskForm = z.infer<typeof addTaskSchema>] *)
Record AddTaskForm : Type := mkAddTaskForm {
  form_text : string;
  form_priority : Priority;
  form_category : option string
}.

(** The body of [addTodoMutation]:
    [{ text, completed: false, priority, category: category || null }] *)
Definition addTodo_body (text : string) (priority : Priority)
    (category : option string) : InsertTodo :=
  {| ins_text := text;
     ins_completed := Some false;
     ins_priority := Some priority;
     ins_category := Some (or_nothing category) |}.

(** The bodies of the four [PATCH] mutations: [{ completed }], [{ text }],
    [{ priority }], [{ category }]. *)
Definition toggleTodo_body (completed : bool) : UpdateTodo :=
  {| upd_id := None; upd_text := None; upd_completed := Some completed;
     upd_priority := None; upd_category := None |}.

Definition editTodo_body (text : string) : UpdateTodo :=
  {| upd_id := None; upd_text := Some text; upd_completed := None;
     upd_priority := None; upd_category := None |}.

Definition updatePriority_body (priority : Priority) : UpdateTodo :=
  {| upd_id := None; upd_text := None; upd_completed := None;
     upd_priority := Some priority; upd_category := None |}.

Definition updateCategory_body (category : option string) : UpdateTodo :=
  {| upd_id := None; upd_text := None; upd_completed := None;
     upd_priority := None; upd_category := Some category |}.

(** What [TodoList] renders: the empty state with its two lines, or the
    items of the todos that are not completed, a divider when both groups
    have items, and the items of the completed todos. *)
Inductive TodoListView : Type :=
| EmptyState (title subtitle : string)
| Items (incompleteTodos : list Todo) (divider : bool)
        (completedTodos : list Todo).

Definition TodoList (todos : list Todo) (emptyMessage : option string)
    : TodoListView :=
  if (List.length todos =? 0)%nat then
    EmptyState
      (match or_nothing emptyMessage with
       | Some m => m
       | None => "No tasks yet"
       end)
      (match or_nothing emptyMessage with
       | Some _ => "Try adjusting your filters"
       | None => "Add one to get started!"
       end)
  else
    let incompleteTodos := filter (fun t => negb (completed t)) todos in
    let completedTodos := filter (fun t => completed t) todos in
    Items incompleteTodos
          ((0 <? List.length completedTodos)%nat &&
           (0 <? List.length incompleteTodos)%nat)
          completedTodos.

(** The items of a view, top to bottom. *)
Definition items_of (v : TodoListView) : list Todo :=
  match v with
  | EmptyState _ _ => []
  | Items incompleteTodos _ completedTodos => incompleteTodos ++ completedTodos
  end.

(** What [TaskCounter] renders: nothing, or [filterLabel] followed by
    [completed] "of" [total] "done". *)
Record TaskCounterView : Type := mkTaskCounterView {
  filterLabel : string;
  shown_completed : Z;
  shown_total : Z
}.

Definition TaskCounter (todos : list Todo) (flt : FilterType)
    : option TaskCounterView :=
  let total := Z.of_nat (List.length todos) in
  let completed := Z.of_nat (List.length (filter (fun t => completed t) todos)) in
  let active := (total - completed)%Z in
  if (total =? 0)%Z then None
  else
    let filterLabel :=
      match flt with
      | F_all =>
          Number_toString total ++ " " ++
          (if (total =? 1)%Z then "task" else "tasks")
      | F_active => Number_toString active ++ " active"
      | F_completed => Number_toString completed ++ " completed"
      end%string in
    Some {| filterLabel := filterLabel;
            shown_completed := completed;
            shown_total := total |}.

Section HomePage.
Context {ops : JSStringOps}.

(** [onSubmit] of [TodoInput]: the three arguments it hands to [onAdd]. *)
Definition onSubmit (data : AddTaskForm) : string * Priority * option string :=
  (trim (form_text data),
   form_priority data,
   or_nothing (option_map trim (form_category data))).

(** [onSubmit] of [TodoItemEdit]: the text it hands to [onSave]. *)
Definition onSubmit_edit (text : string) : string := trim text.

(** The request body a submitted add form ends in: [onSubmit], then
    [handleAddTodo], then the [mutationFn] of [addTodoMutation]. *)
Definition submitted_body (data : AddTaskForm) : InsertTodo :=
  let '(text, priority, category) := onSubmit data in
  addTodo_body text priority category.

Definition getEmptyMessage (searchQuery : string) (flt : FilterType)
    (categoryFilter : string) : option string :=
  if truthy (trim searchQuery) then Some "No tasks match your search"
  else
    match flt with
    | F_active => Some "No active tasks"
    | F_completed => Some "No completed tasks"
    | F_all =>
        if negb (String.eqb categoryFilter "all") then
          Some ("No tasks in " ++ dquote ++ categoryFilter ++ dquote)%string
        else None
    end.

(** The list [Home] renders once the todos are loaded. *)
Definition Home_TodoList (todos : list Todo) (flt : FilterType)
    (searchQuery : string) (sortBy : SortType) (categoryFilter : string)
    : TodoListView :=
  TodoList (filteredAndSortedTodos todos flt searchQuery sortBy categoryFilter)
           (getEmptyMessage searchQuery flt categoryFilter).
End HomePage.

(* ===================================================================== *)
(** * Sample data *)
(* ===================================================================== *)

(** [{ id: "b" }]: an object that fits [UpdateTodo] and carries an [id]. *)
Definition update_with_id : UpdateTodo :=
  {| upd_id := Some "b"; upd_text := None; upd_completed := None;
     upd_priority := None; upd_category := None |}.

(** [{ text: "Buy oat milk", completed: true, category: "Home" }] *)
Definition update_milk : UpdateTodo :=
  {| upd_id := None; upd_text := Some "Buy oat milk";
     upd_completed := Some true; upd_priority := None;
     upd_category := Some (Some "Home") |}.

(** [{ text }], the smallest creation payload. *)
Definition just_text (s : string) : InsertTodo :=
  {| ins_text := s; ins_completed := None; ins_priority := None;
     ins_category := None |}.

(** [{ text, category }] *)
Definition text_category (s : string) (c : option string) : InsertTodo :=
  {| ins_text := s; ins_completed := None; ins_priority := None;
     ins_category := Some c |}.

(** The store after [createTodo({text: "Buy milk"})] drew the id ["a"], and
    after a second creation drew ["b"]. *)
Definition store1 : MemStorage :=
  fst (createTodo "a" (just_text "Buy milk") MemStorage_new).

Definition store2 : MemStorage :=
  fst (createTodo "b" (just_text "Call Bob") store1).

Definition milk : Todo :=
  {| id := "a"; text := "Buy milk"; completed := false; priority := medium;
     category := None |}.

(** Four todos whose categories are ["Work"], ["home"], ["Work"], [null]. *)
Definition store_categories : MemStorage :=
  let st := MemStorage_new in
  let st := fst (createTodo "1" (text_category "Report" (Some "Work")) st) in
  let st := fst (createTodo "2" (text_category "Laundry" (Some "home")) st) in
  let st := fst (createTodo "3" (text_category "Review" (Some "Work")) st) in
  fst (createTodo "4" (text_category "Walk" None) st).

(** One todo whose category is the empty string. *)
Definition store_empty_category : MemStorage :=
  fst (createTodo "1" (text_category "Report" (Some "")) MemStorage_new).

(** The snapshot [[A(high), B(medium), C(high)]]. *)
Definition todoA : Todo :=
  {| id := "A"; text := "A"; completed := false; priority := high;
     category := None |}.
Definition todoB : Todo :=
  {| id := "B"; text := "B"; completed := false; priority := medium;
     category := None |}.
Definition todoC : Todo :=
  {| id := "C"; text := "C"; completed := false; priority := high;
     category := None |}.

(** A todo filed under the category ["all"], and one filed under ["Work"]. *)
Definition todo_all : Todo :=
  {| id := "x"; text := "Sweep"; completed := false; priority := low;
     category := Some "all" |}.
Definition todo_work : Todo :=
  {| id := "y"; text := "Report"; completed := false; priority := low;
     category := Some "Work" |}.

(** [{}]: a payload with no property. *)
Definition empty_update : UpdateTodo :=
  {| upd_id := None; upd_text := None; upd_completed := None;
     upd_priority := None; upd_category := None |}.

(** Request bodies to run the routes on: a creation body and an update body
    that their schemas accept, and a body that neither accepts.  The update
    schema hands on what [updateTodoSchema] keeps. *)
Inductive SampleBody : Type :=
| InsertBody (fields : InsertTodo)
| UpdateBody (updates : UpdateTodo)
| Garbage.

Definition sample_parseInsert (b : SampleBody) : SafeParse unit InsertTodo :=
  match b with
  | InsertBody fields => ParseSuccess fields
  | _ => ParseFailure tt
  end.

Definition sample_parseUpdate (b : SampleBody) : SafeParse unit UpdateTodo :=
  match b with
  | UpdateBody updates => ParseSuccess (updateTodoSchema updates)
  | _ => ParseFailure tt
  end.

(** A run of requests: a creation, an update whose body carries an [id], a
    deletion of an id that is not stored. *)
Definition sample_requests : list (string * Request SampleBody) :=
  [("a", POST_todo (InsertBody (just_text "Buy milk")));
   ("", PATCH_todo "a" (UpdateBody update_with_id));
   ("", DELETE_todo "b")].

(** An add form as the user left it. *)
Definition sample_form : AddTaskForm :=
  {| form_text := "  Buy milk "; form_priority := high;
     form_category := Some "  " |}.

(** An add form with a category typed in. *)
Definition sample_form_home : AddTaskForm :=
  {| form_text := "Buy milk"; form_priority := medium;
     form_category := Some " Home " |}.

(** A completed todo of high priority. *)
Definition todoD : Todo :=
  {| id := "D"; text := "D"; completed := true; priority := high;
     category := None |}.

(** A second registration under the name of the first. *)
Definition ann_again : InsertUser :=
  {| ins_username := "ann"; ins_password := "other" |}.

(** A store with one user. *)
Definition store_user : MemStorage :=
  fst (createUser "u1" {| ins_username := "ann"; ins_password := "pw" |}
         MemStorage_new).

(** The todos of [store_categories], created in another order. *)
Definition store_categories_shuffled : MemStorage :=
  let st := MemStorage_new in
  let st := fst (createTodo "4" (text_category "Walk" None) st) in
  let st := fst (createTodo "3" (text_category "Review" (Some "Work")) st) in
  let st := fst (createTodo "2" (text_category "Laundry" (Some "home")) st) in
  fst (createTodo "1" (text_category "Report" (Some "Work")) st).

(* ===================================================================== *)
(** * Facts about [Map] *)
(* ===================================================================== *)

Section JsMapFacts.
Context {V : Type}.
Implicit Types (m : Map V) (k : string) (v : V).

Lemma Map_get_set_eq k v m : Map_get k (Map_set k v m) = Some v.
Proof.
  induction m as [|[k' v'] m IH]; simpl.
  - now rewrite String.eqb_refl.
  - destruct (String.eqb_spec k' k) as [->|Hne]; simpl.
    + now rewrite String.eqb_refl.
    + destruct (String.eqb_spec k' k); [contradiction | exact IH].
Qed.

Lemma Map_get_set_ne k k' v m :
  k <> k' -> Map_get k' (Map_set k v m) = Map_get k' m.
Proof.
  intros Hne. induction m as [|[k0 v0] m IH]; simpl.
  - destruct (String.eqb_spec k k'); [contradiction | reflexivity].
  - destruct (String.eqb_spec k0 k) as [->|H0]; simpl.
    + destruct (String.eqb_spec k k'); [contradiction | reflexivity].
    + now rewrite IH.
Qed.

Lemma Map_get_None k m : Map_get k m = None <-> ~ In k (Map_keys m).
Proof.
  induction m as [|[k' v'] m IH]; simpl.
  - tauto.
  - destruct (String.eqb_spec k' k) as [->|Hne].
    + split; [discriminate | intros H; exfalso; apply H; now left].
    + rewrite IH. tauto.
Qed.

Lemma Map_get_In k v m : Map_get k m = Some v -> In (k, v) m.
Proof.
  induction m as [|[k' v'] m IH]; simpl; [discriminate|].
  destruct (String.eqb_spec k' k) as [->|Hne].
  - intros [= ->]. now left.
  - intros H. right. now apply IH.
Qed.

(** Writing under a key the map has leaves every entry where it was. *)
Lemma Map_keys_set_present k v v0 m :
  Map_get k m = Some v0 -> Map_keys (Map_set k v m) = Map_keys m.
Proof.
  induction m as [|[k' v'] m IH]; simpl; [discriminate|].
  destruct (String.eqb_spec k' k) as [->|Hne]; simpl.
  - reflexivity.
  - intros H. now rewrite (IH H).
Qed.

Lemma Map_values_set_present {B : Type} (f : V -> B) k v v0 m :
  Map_get k m = Some v0 -> f v = f v0 ->
  map f (Map_values (Map_set k v m)) = map f (Map_values m).
Proof.
  intros Hget Hf. revert Hget.
  induction m as [|[k' v'] m IH]; simpl; [discriminate|].
  destruct (String.eqb_spec k' k) as [->|Hne]; simpl.
  - intros [= ->]. now rewrite Hf.
  - intros H. f_equal. now apply IH.
Qed.

Lemma Map_length_set_present k v v0 m :
  Map_get k m = Some v0 -> List.length (Map_set k v m) = List.length m.
Proof.
  intros H. apply Map_keys_set_present with (v := v) in H.
  unfold Map_keys in H.
  now rewrite <- (length_map fst), H, length_map.
Qed.

Lemma Map_keys_set_absent k v m :
  Map_get k m = None -> Map_keys (Map_set k v m) = Map_keys m ++ [k].
Proof.
  induction m as [|[k' v'] m IH]; simpl; [reflexivity|].
  destruct (String.eqb_spec k' k) as [->|Hne]; simpl.
  - discriminate.
  - intros H. now rewrite (IH H).
Qed.

Lemma Map_wf_set k v m : Map_wf m -> Map_wf (Map_set k v m).
Proof.
  unfold Map_wf. intros Hwf.
  destruct (Map_get k m) as [v0|] eqn:Hget.
  - now rewrite (Map_keys_set_present _ _ _ _ Hget).
  - rewrite (Map_keys_set_absent _ _ _ Hget).
    apply Map_get_None in Hget.
    apply NoDup_rev in Hwf. rewrite <- (rev_involutive (_ ++ _)).
    apply NoDup_rev. rewrite rev_app_distr. simpl.
    constructor; [now rewrite <- in_rev | exact Hwf].
Qed.

Lemma Map_delete_absent k m :
  Map_get k m = None -> Map_delete k m = (m, false).
Proof.
  induction m as [|[k' v'] m IH]; simpl; [reflexivity|].
  destruct (String.eqb_spec k' k) as [->|Hne]; [discriminate|].
  intros H. now rewrite (IH H).
Qed.

Lemma Map_delete_present k v m :
  Map_get k m = Some v -> snd (Map_delete k m) = true.
Proof.
  induction m as [|[k' v'] m IH]; simpl; [discriminate|].
  destruct (String.eqb_spec k' k) as [->|Hne]; [reflexivity|].
  intros H. specialize (IH H). now destruct (Map_delete k m).
Qed.

(** The value of [m.delete(k)] tells whether [k] had an entry. *)
Lemma Map_delete_true_iff k m :
  snd (Map_delete k m) = true <-> exists v, Map_get k m = Some v.
Proof.
  split.
  - destruct (Map_get k m) as [v|] eqn:Hget; [now exists v|].
    rewrite (Map_delete_absent _ _ Hget). discriminate.
  - intros [v Hv]. now apply Map_delete_present with v.
Qed.

Lemma Map_delete_get_ne k k' m :
  k <> k' -> Map_get k' (fst (Map_delete k m)) = Map_get k' m.
Proof.
  intros Hne. induction m as [|[k0 v0] m IH]; simpl; [reflexivity|].
  destruct (String.eqb_spec k0 k) as [->|H0]; simpl.
  - destruct (String.eqb_spec k k'); [contradiction | reflexivity].
  - destruct (Map_delete k m) as [r b]. simpl in *. now rewrite IH.
Qed.

Lemma Map_delete_keys_incl k m x :
  In x (Map_keys (fst (Map_delete k m))) -> In x (Map_keys m).
Proof.
  induction m as [|[k0 v0] m IH]; simpl; [tauto|].
  destruct (String.eqb_spec k0 k) as [->|H0]; simpl.
  - tauto.
  - destruct (Map_delete k m) as [r b]. simpl in *. tauto.
Qed.

Lemma Map_wf_delete k m : Map_wf m -> Map_wf (fst (Map_delete k m)).
Proof.
  unfold Map_wf.
  induction m as [|[k0 v0] m IH]; simpl; intros Hwf; [constructor|].
  inversion Hwf as [|? ? Hnin Hm]; subst.
  destruct (String.eqb_spec k0 k) as [->|H0]; simpl; [exact Hm|].
  pose proof (Map_delete_keys_incl k m k0) as Hincl.
  destruct (Map_delete k m) as [r b]. simpl in *.
  constructor; [tauto | now apply IH].
Qed.

(** In a map with no repeated key, a deleted key is gone. *)
Lemma Map_delete_get_eq k m :
  Map_wf m -> Map_get k (fst (Map_delete k m)) = None.
Proof.
  unfold Map_wf.
  induction m as [|[k0 v0] m IH]; simpl; intros Hwf; [reflexivity|].
  inversion Hwf as [|? ? Hnin Hm]; subst.
  destruct (String.eqb_spec k0 k) as [->|H0]; simpl.
  - now apply Map_get_None.
  - specialize (IH Hm). destruct (Map_delete k m) as [r b]. simpl in *.
    destruct (String.eqb_spec k0 k); [contradiction | exact IH].
Qed.
End JsMapFacts.

(* ===================================================================== *)
(** * The storage engine *)
(* ===================================================================== *)

Lemma set_todos_id (st : MemStorage) : set_todos (fun _ => todos st) st = st.
Proof. now destruct st. Qed.

Lemma spread_get (k : TodoKey) (t : Todo) (u : UpdateTodo) :
  Todo_get k (spread t u) = override (Todo_get k t) (UpdateTodo_get k u).
Proof. now destruct k. Qed.

(** What [updateTodo] does when the id is stored. *)
Lemma updateTodo_present (i : string) (u : UpdateTodo) (st : MemStorage) (t : Todo) :
  getTodo i st = Some t ->
  updateTodo i u st = (set_todos (Map_set i (spread t u)) st, Some (spread t u)).
Proof. unfold updateTodo, getTodo. now intros ->. Qed.

(** ** The invariant of the store *)

Lemma In_Map_set {V : Type} (k k0 : string) (v v0 : V) (m : Map V) :
  In (k, v) (Map_set k0 v0 m) -> (k, v) = (k0, v0) \/ In (k, v) m.
Proof.
  induction m as [|[k' v'] m IH]; simpl.
  - intros [H|[]]. now left.
  - destruct (String.eqb_spec k' k0) as [->|Hne]; simpl; intuition.
Qed.

Lemma In_Map_delete {V : Type} (k k0 : string) (v : V) (m : Map V) :
  In (k, v) (fst (Map_delete k0 m)) -> In (k, v) m.
Proof.
  induction m as [|[k' v'] m IH]; simpl; [tauto|].
  destruct (String.eqb_spec k' k0) as [->|Hne]; simpl; [tauto|].
  destruct (Map_delete k0 m) as [r b]. simpl in *. tauto.
Qed.

Lemma Store_wf_new : Store_wf MemStorage_new.
Proof. repeat split; try constructor. intros k t []. Qed.

Lemma Store_wf_createUser uuid fields st :
  Store_wf st -> Store_wf (fst (createUser uuid fields st)).
Proof.
  intros (Hu & Ht & Hid). repeat split; simpl; auto using Map_wf_set.
Qed.

Lemma Store_wf_createTodo uuid fields st :
  Store_wf st -> Store_wf (fst (createTodo uuid fields st)).
Proof.
  intros (Hu & Ht & Hid). repeat split; simpl; auto using Map_wf_set.
  intros k t H. apply In_Map_set in H.
  destruct H as [H|H]; [now inversion H | now apply Hid].
Qed.

(** An update keeps the invariant when the payload has the declared shape. *)
Lemma Store_wf_updateTodo i u st :
  upd_id u = None -> Store_wf st -> Store_wf (fst (updateTodo i u st)).
Proof.
  intros Hu (Hus & Ht & Hid). unfold updateTodo.
  destruct (Map_get i (todos st)) as [t|] eqn:Hget; [|now repeat split].
  repeat split; simpl; auto using Map_wf_set.
  intros k t' H. apply In_Map_set in H.
  destruct H as [H|H]; [|now apply Hid].
  inversion H; subst. unfold spread; simpl. rewrite Hu; simpl.
  apply Hid. now apply Map_get_In.
Qed.

Lemma Store_wf_deleteTodo i st :
  Store_wf st -> Store_wf (fst (deleteTodo i st)).
Proof.
  intros (Hus & Ht & Hid). unfold deleteTodo.
  pose proof (Map_wf_delete i (todos st) Ht) as Hwf.
  pose proof (fun k t => In_Map_delete k i t (todos st)) as Hin.
  destruct (Map_delete i (todos st)) as [m b]. simpl in *.
  repeat split; simpl; auto.
Qed.

(** X1: whatever calls were made on the store, and whatever their payloads
    were, neither map of the store holds a key twice. *)
Lemma Reachable_Map_wf (st : MemStorage) :
  Reachable st -> Map_wf (users st) /\ Map_wf (todos st).
Proof.
  induction 1 as [|uuid fields st _ [IHu IHt]|uuid fields st _ [IHu IHt]
                 |i u st _ [IHu IHt]|i st _ [IHu IHt]].
  - split; constructor.
  - split; simpl; auto using Map_wf_set.
  - split; simpl; auto using Map_wf_set.
  - unfold updateTodo. destruct (Map_get i (todos st)); [|now split].
    split; simpl; auto using Map_wf_set.
  - unfold deleteTodo.
    pose proof (Map_wf_delete i (todos st) IHt) as Hwf.
    destruct (Map_delete i (todos st)) as [m b]. now split.
Qed.

(** ** Updates *)

(** C1 fails as stated: the spread copies an [id] the payload carries.  The
    store holds one todo under ["a"]; after [updateTodo("a", {id: "b"})] the
    record kept under ["a"] has the id ["b"]. *)
Lemma updateTodo_merges_supplied_id :
  ~ (forall (st : MemStorage) (t : Todo) (u : UpdateTodo),
       getTodo (id t) st = Some t ->
       exists r, getTodo (id t) (fst (updateTodo (id t) u st)) = Some r /\
                 id r = id t).
Proof.
  intros H.
  specialize (H store1 milk update_with_id eq_refl).
  destruct H as (r & Hr & Hid).
  vm_compute in Hr. injection Hr as <-. discriminate Hid.
Qed.

(** C1, amended: for every stored todo [t] and every payload [u], the todo
    that [updateTodo(t.id, u)] stores and returns has the id [u] supplies
    when it supplies one and the id of [t] otherwise.  So the stored todo
    keeps its id for every payload with no [id] property, and for every
    payload whatever once [updateTodoSchema] has parsed it. *)
Theorem updateTodo_keeps_id_without_id_key (st : MemStorage) (t : Todo) (u : UpdateTodo) :
  getTodo (id t) st = Some t ->
  (exists r,
     snd (updateTodo (id t) u st) = Some r /\
     getTodo (id t) (fst (updateTodo (id t) u st)) = Some r /\
     id r = override (id t) (upd_id u) /\
     (upd_id u = None -> id r = id t)) /\
  (exists r,
     snd (updateTodo (id t) (updateTodoSchema u) st) = Some r /\
     getTodo (id t) (fst (updateTodo (id t) (updateTodoSchema u) st)) = Some r /\
     id r = id t).
Proof.
  intros Hget. split.
  - exists (spread t u).
    rewrite (updateTodo_present _ u _ _ Hget). simpl.
    split; [reflexivity|]. split; [|split].
    + unfold getTodo. simpl. apply Map_get_set_eq.
    + reflexivity.
    + intros ->. reflexivity.
  - exists (spread t (updateTodoSchema u)).
    rewrite (updateTodo_present _ _ _ _ Hget). simpl.
    split; [reflexivity|]. split; [|reflexivity].
    unfold getTodo. simpl. apply Map_get_set_eq.
Qed.

Lemma updateTodo_keeps_id_without_id_key_witness :
  getTodo (id milk) store1 = Some milk /\
  upd_id update_milk = None /\
  exists r,
    getTodo (id milk) (fst (updateTodo (id milk) update_milk store1)) = Some r /\
    id r = id milk.
Proof.
  split; [reflexivity|]. split; [reflexivity|].
  destruct (updateTodo_keeps_id_without_id_key store1 milk update_milk eq_refl)
    as [(r & _ & Hr & _ & Hid) _].
  exists r. split; [exact Hr | exact (Hid eq_refl)].
Defined.

(** C2: for every stored todo [t] and every payload [u] with no [id]
    property, [updateTodo(t.id, u)] returns a todo [r], [r] is what the store
    then holds under [t.id], and under every key [r] has the value of [u]
    when [u] has the key and the value [t] had otherwise; the todos stored
    under other ids are untouched. *)
Theorem updateTodo_partial_merge (st : MemStorage) (t : Todo) (u : UpdateTodo) :
  getTodo (id t) st = Some t ->
  upd_id u = None ->
  exists r,
    snd (updateTodo (id t) u st) = Some r /\
    getTodo (id t) (fst (updateTodo (id t) u st)) = Some r /\
    (forall k : TodoKey,
       Todo_get k r = match UpdateTodo_get k u with
                      | Some v => v
                      | None => Todo_get k t
                      end) /\
    id r = id t /\
    (forall j, j <> id t ->
       getTodo j (fst (updateTodo (id t) u st)) = getTodo j st).
Proof.
  intros Hget Hu. exists (spread t u).
  rewrite (updateTodo_present _ u _ _ Hget). simpl.
  repeat split.
  - unfold getTodo. simpl. apply Map_get_set_eq.
  - intros k. apply spread_get.
  - now rewrite Hu.
  - intros j Hj. unfold getTodo. simpl. apply Map_get_set_ne. congruence.
Qed.

Lemma updateTodo_partial_merge_witness :
  getTodo (id milk) store2 = Some milk /\
  upd_id update_milk = None /\
  exists r,
    snd (updateTodo (id milk) update_milk store2) = Some r /\
    getTodo (id milk) (fst (updateTodo (id milk) update_milk store2)) = Some r /\
    (forall k : TodoKey,
       Todo_get k r = match UpdateTodo_get k update_milk with
                      | Some v => v
                      | None => Todo_get k milk
                      end) /\
    id r = id milk /\
    (forall j, j <> id milk ->
       getTodo j (fst (updateTodo (id milk) update_milk store2))
       = getTodo j store2).
Proof.
  split; [reflexivity|]. split; [reflexivity|].
  apply (updateTodo_partial_merge store2 milk update_milk); reflexivity.
Defined.

(** C4: for every id [x] under which nothing is stored and every payload
    [u], [updateTodo(x, u)] returns [undefined] and the store it leaves is
    the store it found.  (The method is a total function: it has a result
    for every input, so nothing is thrown.) *)
Theorem updateTodo_absent (st : MemStorage) (x : string) (u : UpdateTodo) :
  getTodo x st = None -> updateTodo x u st = (st, None).
Proof. unfold updateTodo, getTodo. now intros ->. Qed.

Lemma updateTodo_absent_witness :
  getTodo "zzz" store2 = None /\
  updateTodo "zzz" update_milk store2 = (store2, None).
Proof.
  split; [reflexivity|].
  apply (updateTodo_absent store2 "zzz" update_milk). reflexivity.
Defined.

(** ** Creation and deletion *)

(** C8: for every creation payload [fields] (and whatever id [randomUUID]
    draws), a [getTodo] of the id of the todo that [createTodo(fields)]
    returned, on the store that the creation left, returns that todo. *)
Theorem createTodo_getTodo (uuid : string) (fields : InsertTodo) (st : MemStorage) :
  getTodo (id (snd (createTodo uuid fields st))) (fst (createTodo uuid fields st))
  = Some (snd (createTodo uuid fields st)).
Proof. unfold getTodo. simpl. apply Map_get_set_eq. Qed.

Example createTodo_defaults :
  snd (createTodo "a" (just_text "Buy milk") MemStorage_new) = milk.
Proof. reflexivity. Qed.

(** C5: on a store whose map has no key twice, [deleteTodo(x)] returns
    [true] exactly when a todo was stored under [x]; afterwards nothing is
    stored under [x] and every other id holds what it held; when nothing was
    stored under [x] the result is [false] and the store is unchanged; and a
    second [deleteTodo(x)] right after the first returns [false] and changes
    nothing. *)
Theorem deleteTodo_spec (st : MemStorage) (x : string) :
  Map_wf (todos st) ->
  let st' := fst (deleteTodo x st) in
  (snd (deleteTodo x st) = true <-> exists t, getTodo x st = Some t) /\
  getTodo x st' = None /\
  (forall y, y <> x -> getTodo y st' = getTodo y st) /\
  (getTodo x st = None -> deleteTodo x st = (st, false)) /\
  deleteTodo x st' = (st', false).
Proof.
  intros Hwf st'.
  assert (Hgone : getTodo x st' = None).
  { subst st'. unfold deleteTodo, getTodo.
    pose proof (Map_delete_get_eq x (todos st) Hwf) as H.
    now destruct (Map_delete x (todos st)). }
  assert (Habsent : forall s, getTodo x s = None -> deleteTodo x s = (s, false)).
  { intros s H. unfold deleteTodo, getTodo in *.
    rewrite (Map_delete_absent _ _ H). now rewrite set_todos_id. }
  repeat split.
  - intros H. apply Map_delete_true_iff. unfold deleteTodo in H.
    now destruct (Map_delete x (todos st)).
  - intros H. apply Map_delete_true_iff in H. unfold deleteTodo.
    now destruct (Map_delete x (todos st)).
  - exact Hgone.
  - intros y Hy. subst st'. unfold deleteTodo, getTodo.
    pose proof (Map_delete_get_ne x y (todos st) (not_eq_sym Hy)) as H.
    now destruct (Map_delete x (todos st)).
  - apply Habsent.
  - now apply Habsent.
Qed.

Lemma deleteTodo_spec_witness :
  Map_wf (todos store2) /\
  let st' := fst (deleteTodo "a" store2) in
  (snd (deleteTodo "a" store2) = true <-> exists t, getTodo "a" store2 = Some t) /\
  getTodo "a" st' = None /\
  (forall y, y <> "a" -> getTodo y st' = getTodo y store2) /\
  (getTodo "a" store2 = None -> deleteTodo "a" store2 = (store2, false)) /\
  deleteTodo "a" st' = (st', false).
Proof.
  assert (Hwf : Map_wf (todos store2)).
  { unfold Map_wf. simpl. repeat constructor; simpl; intuition discriminate. }
  split; [exact Hwf|].
  apply (deleteTodo_spec store2 "a" Hwf).
Defined.

Example deleteTodo_twice :
  snd (deleteTodo "a" store2) = true /\
  snd (deleteTodo "a" (fst (deleteTodo "a" store2))) = false.
Proof. split; reflexivity. Qed.

(* ===================================================================== *)
(** * Facts about [Array.prototype.sort] *)
(* ===================================================================== *)

Section ArraySortFacts.
Context {A : Type} (comparefn : A -> A -> Z).

Local Abbreviation le := (fun a b => (comparefn a b <= 0)%Z).

Lemma sort_insert_perm (x : A) (l : list A) :
  Permutation (sort_insert comparefn x l) (x :: l).
Proof.
  induction l as [|y l IH]; simpl; [reflexivity|].
  destruct (comparefn x y <=? 0)%Z; [reflexivity|].
  rewrite IH. apply perm_swap.
Qed.

Lemma Array_sort_perm (l : list A) : Permutation (Array_sort comparefn l) l.
Proof.
  induction l as [|x l IH]; simpl; [reflexivity|].
  rewrite sort_insert_perm. now constructor.
Qed.

Lemma Array_sort_In (l : list A) (x : A) :
  In x (Array_sort comparefn l) <-> In x l.
Proof.
  split; apply Permutation_in;
    [apply Array_sort_perm | symmetry; apply Array_sort_perm].
Qed.

(** An element that exceeds none of the list goes in front of it. *)
Lemma sort_insert_front (x : A) (l : list A) :
  Forall (le x) l -> sort_insert comparefn x l = x :: l.
Proof.
  destruct l as [|y l]; simpl; [reflexivity|].
  intros H. inversion H as [|? ? Hy _]; subst.
  apply Z.leb_le in Hy. now rewrite Hy.
Qed.

(** An element passes over every element it exceeds. *)
Lemma sort_insert_skip (x : A) (l1 l2 : list A) :
  Forall (fun y => (0 < comparefn x y)%Z) l1 ->
  sort_insert comparefn x (l1 ++ l2) = l1 ++ sort_insert comparefn x l2.
Proof.
  induction 1 as [|y l1 Hy _ IH]; simpl; [reflexivity|].
  apply Z.leb_gt in Hy. now rewrite Hy, IH.
Qed.

(** A comparator that always answers 0 leaves the array as it is. *)
Lemma Array_sort_constant (l : list A) :
  (forall a b, comparefn a b = 0%Z) -> Array_sort comparefn l = l.
Proof.
  intros H0. induction l as [|x l IH]; simpl; [reflexivity|].
  rewrite IH. apply sort_insert_front.
  apply Forall_forall. intros y _. now rewrite H0.
Qed.

Section TotalOrder.
Hypothesis le_total : forall a b, le a b \/ le b a.
Hypothesis le_trans : forall a b c, le a b -> le b c -> le a c.

Lemma sort_insert_sorted (x : A) (l : list A) :
  StronglySorted le l -> StronglySorted le (sort_insert comparefn x l).
Proof.
  induction 1 as [|y l Hs IH Hy]; simpl.
  - repeat constructor.
  - destruct (comparefn x y <=? 0)%Z eqn:Hxy.
    + apply Z.leb_le in Hxy. constructor.
      * now constructor.
      * constructor; [exact Hxy|].
        eapply Forall_impl; [|exact Hy].
        intros z Hz. now apply le_trans with y.
    + apply Z.leb_gt in Hxy. constructor; [exact IH|].
      apply Forall_forall. intros z Hz.
      apply (Permutation_in _ (sort_insert_perm x l)) in Hz.
      destruct Hz as [<-|Hz].
      * destruct (le_total y x) as [H|H]; [exact H | lia].
      * rewrite Forall_forall in Hy. now apply Hy.
Qed.

Lemma Array_sort_sorted (l : list A) :
  StronglySorted le (Array_sort comparefn l).
Proof.
  induction l as [|x l IH]; simpl; [constructor|].
  now apply sort_insert_sorted.
Qed.
End TotalOrder.

(** *** Stability and uniqueness for a consistent comparator *)

Section Ranked.
Hypothesis Hc : Consistent comparefn.

Lemma Consistent_total (a b : A) : le a b \/ le b a.
Proof.
  destruct (Z_le_gt_dec (comparefn a b) 0) as [H|H]; [now left|right].
  apply Z.gt_lt, (cmp_flip _ Hc) in H. lia.
Qed.

Lemma Consistent_sym (a b : A) : comparefn a b = 0%Z -> comparefn b a = 0%Z.
Proof.
  intros H. pose proof (cmp_flip _ Hc a b). pose proof (cmp_flip _ Hc b a).
  lia.
Qed.

Lemma Array_sort_sorted_consistent (l : list A) :
  StronglySorted le (Array_sort comparefn l).
Proof.
  apply Array_sort_sorted; [apply Consistent_total | apply (cmp_trans _ Hc)].
Qed.

Lemma filter_sort_insert (z x : A) (l : list A) :
  filter (same_rank comparefn z) (sort_insert comparefn x l)
  = filter (same_rank comparefn z) (x :: l).
Proof.
  induction l as [|y l IH]; [reflexivity|].
  cbn [sort_insert].
  destruct (comparefn x y <=? 0)%Z eqn:Hxy; [reflexivity|].
  apply Z.leb_gt in Hxy. cbn [filter] in *. rewrite IH.
  destruct (same_rank comparefn z y) eqn:Hy,
           (same_rank comparefn z x) eqn:Hx; try reflexivity.
  unfold same_rank in Hx, Hy. apply Z.eqb_eq in Hx, Hy.
  apply Consistent_sym in Hx.
  pose proof (cmp_trans _ Hc x z y). lia.
Qed.

(** The sort is stable: elements that compare equal keep their order. *)
Lemma Array_sort_stable (z : A) (l : list A) :
  filter (same_rank comparefn z) (Array_sort comparefn l)
  = filter (same_rank comparefn z) l.
Proof.
  induction l as [|x l IH]; [reflexivity|].
  cbn [Array_sort]. rewrite filter_sort_insert. cbn [filter].
  now rewrite IH.
Qed.

(** Two ascending lists with the same elements of every rank, in the same
    order, are one list. *)
Lemma sorted_stable_unique (l1 l2 : list A) :
  StronglySorted le l1 -> StronglySorted le l2 ->
  (forall z, filter (same_rank comparefn z) l1
             = filter (same_rank comparefn z) l2) ->
  l1 = l2.
Proof.
  intros H1. revert l2.
  induction H1 as [|a l1 Hs1 IH Ha]; intros l2 H2 Hf.
  - destruct l2 as [|b l2]; [reflexivity|].
    specialize (Hf b). cbn in Hf. unfold same_rank in Hf at 1.
    now rewrite (cmp_refl _ Hc), Z.eqb_refl in Hf.
  - destruct H2 as [|b l2 Hs2 Hb].
    + specialize (Hf a). cbn in Hf. unfold same_rank in Hf at 1.
      now rewrite (cmp_refl _ Hc), Z.eqb_refl in Hf.
    + assert (Hin_a : In a (b :: l2)).
      { assert (H : In a (filter (same_rank comparefn a) (b :: l2))).
        { rewrite <- Hf. cbn. unfold same_rank at 1.
          rewrite (cmp_refl _ Hc), Z.eqb_refl. now left. }
        now apply filter_In in H. }
      assert (Hin_b : In b (a :: l1)).
      { assert (H : In b (filter (same_rank comparefn b) (a :: l1))).
        { rewrite Hf. cbn. unfold same_rank at 1.
          rewrite (cmp_refl _ Hc), Z.eqb_refl. now left. }
        now apply filter_In in H. }
      assert (Hab : comparefn a b = 0%Z).
      { rewrite Forall_forall in Ha, Hb.
        assert (Hle1 : le a b).
        { destruct Hin_b as [<-|Hin]; [|now apply Ha].
          rewrite (cmp_refl _ Hc). lia. }
        assert (Hle2 : le b a).
        { destruct Hin_a as [<-|Hin]; [|now apply Hb].
          rewrite (cmp_refl _ Hc). lia. }
        pose proof (cmp_flip _ Hc a b). cbv beta in *. lia. }
      assert (a = b).
      { specialize (Hf a). cbn [filter] in Hf.
        assert (Haa : same_rank comparefn a a = true)
          by (unfold same_rank; now rewrite (cmp_refl _ Hc)).
        assert (Hab' : same_rank comparefn a b = true)
          by (unfold same_rank; now rewrite Hab).
        rewrite Haa, Hab' in Hf. congruence. }
      subst b. f_equal. apply IH; [exact Hs2|].
      intros z. specialize (Hf z). cbn [filter] in Hf.
      destruct (same_rank comparefn z a); congruence.
Qed.

(** What the language asks of [sort] has one answer, and [Array_sort]
    computes it. *)
Theorem Array_sort_unique (l l' : list A) :
  StronglySorted le l' ->
  (forall z, filter (same_rank comparefn z) l'
             = filter (same_rank comparefn z) l) ->
  l' = Array_sort comparefn l.
Proof.
  intros Hs Hf. apply sorted_stable_unique.
  - exact Hs.
  - apply Array_sort_sorted_consistent.
  - intros z. now rewrite Array_sort_stable.
Qed.
End Ranked.
End ArraySortFacts.

Lemma StronglySorted_weaken {A : Type} (R S : A -> A -> Prop) (l : list A) :
  (forall a b, R a b -> S a b) -> StronglySorted R l -> StronglySorted S l.
Proof.
  intros HRS. induction 1 as [|x l Hs IH Hx]; constructor; auto.
  eapply Forall_impl; [|exact Hx]. intros y. apply HRS.
Qed.

(** In a list sorted for [R], an earlier element is [R]-below a later one. *)
Lemma StronglySorted_nth {A : Type} (R : A -> A -> Prop) (l : list A) :
  StronglySorted R l ->
  forall i j a b, (i < j)%nat ->
    nth_error l i = Some a -> nth_error l j = Some b -> R a b.
Proof.
  induction 1 as [|x l Hs IH Hx]; intros i j a b Hij Hi Hj.
  - destruct i; discriminate.
  - destruct j as [|j]; [lia|]. simpl in Hj.
    destruct i as [|i]; simpl in Hi.
    + injection Hi as <-. rewrite Forall_forall in Hx.
      apply Hx. eapply nth_error_In; eauto.
    + apply (IH i j); auto. lia.
Qed.

(** ** The order of code units on strings *)

Lemma String_compare_refl (a : string) : String.compare a a = Eq.
Proof.
  induction a as [|c a IH]; simpl; [reflexivity|].
  unfold Ascii.compare. now rewrite N.compare_refl.
Qed.

Lemma String_compare_not_Gt_trans (a b c : string) :
  String.compare a b <> Gt -> String.compare b c <> Gt ->
  String.compare a c <> Gt.
Proof.
  revert b c.
  induction a as [|ca a IH]; intros [|cb b] [|cc c]; simpl;
    try congruence.
  unfold Ascii.compare.
  destruct (N.compare_spec (N_of_ascii ca) (N_of_ascii cb));
    destruct (N.compare_spec (N_of_ascii cb) (N_of_ascii cc));
    destruct (N.compare_spec (N_of_ascii ca) (N_of_ascii cc));
    try congruence; try lia; eauto.
Qed.

Lemma defaultCompare_le (a b : string) :
  (defaultCompare a b <= 0)%Z <-> String.compare a b <> Gt.
Proof.
  unfold defaultCompare.
  destruct (String.compare a b); split; intros; try discriminate; try lia;
    congruence.
Qed.

Lemma defaultCompare_total (a b : string) :
  (defaultCompare a b <= 0)%Z \/ (defaultCompare b a <= 0)%Z.
Proof.
  rewrite !defaultCompare_le, (String.compare_antisym b a).
  destruct (String.compare a b); simpl; [left|left|right]; discriminate.
Qed.

Lemma defaultCompare_trans (a b c : string) :
  (defaultCompare a b <= 0)%Z -> (defaultCompare b c <= 0)%Z ->
  (defaultCompare a c <= 0)%Z.
Proof. rewrite !defaultCompare_le. apply String_compare_not_Gt_trans. Qed.

Lemma defaultCompare_Consistent : Consistent defaultCompare.
Proof.
  split.
  - intros a. unfold defaultCompare. now rewrite String_compare_refl.
  - intros a b. unfold defaultCompare.
    rewrite (String.compare_antisym b a).
    destruct (String.compare a b); simpl; lia.
  - apply defaultCompare_trans.
Qed.

(** A duplicate-free list in ascending order is in strictly ascending
    order. *)
Lemma sorted_NoDup_strict (l : list string) :
  StronglySorted (fun a b => (defaultCompare a b <= 0)%Z) l ->
  NoDup l ->
  StronglySorted (fun a b => String.compare a b = Lt) l.
Proof.
  induction 1 as [|x l Hs IH Hx]; intros Hnd; constructor;
    inversion Hnd as [|? ? Hnin Hnd']; subst.
  - now apply IH.
  - rewrite Forall_forall in *. intros y Hy.
    specialize (Hx y Hy). apply defaultCompare_le in Hx.
    destruct (String.compare x y) eqn:Hc; try congruence.
    apply String.compare_eq_iff in Hc. subst. contradiction.
Qed.

(* ===================================================================== *)
(** * The query layer *)
(* ===================================================================== *)

Lemma truthy_true_iff (c : string) : truthy c = true <-> c <> "".
Proof. destruct c; simpl; split; congruence. Qed.

Lemma has_priority_true_iff (p : Priority) (t : Todo) :
  has_priority p t = true <-> priority t = p.
Proof.
  unfold has_priority. destruct (priority t), p; simpl; split; congruence.
Qed.

Lemma Forall_filter_has_priority (p : Priority) (l : list Todo) :
  Forall (fun t => priority t = p) (filter (has_priority p) l).
Proof.
  apply Forall_forall. intros t Ht. apply filter_In in Ht.
  now apply has_priority_true_iff.
Qed.

Lemma category_is_true_iff (c : string) (t : Todo) :
  category_is c t = true <-> category t = Some c.
Proof.
  unfold category_is. destruct (category t) as [c'|].
  - rewrite String.eqb_eq. split; congruence.
  - split; discriminate.
Qed.

Section QueryLayerFacts.
Context {ops : JSStringOps}.

Lemma filteredAndSortedTodos_stages (todos : list Todo) (flt : FilterType)
    (q : string) (sortBy : SortType) (c : string) :
  filteredAndSortedTodos todos flt q sortBy c
  = sort_result sortBy (filter_category c (filter_search q (filter_status flt todos))).
Proof. reflexivity. Qed.

(** The comparators of the sorts the claims are about are consistent. *)
Lemma compareTodos_Consistent (sortBy : SortType) :
  sortBy <> S_alphabetical -> Consistent (compareTodos sortBy).
Proof.
  intros Hs. destruct sortBy; try contradiction; split; intros; cbn in *; lia.
Qed.

Lemma sort_result_oldest (l : list Todo) : sort_result S_oldest l = l.
Proof. unfold sort_result. now apply Array_sort_constant. Qed.

Lemma sort_result_newest (l : list Todo) : sort_result S_newest l = rev l.
Proof. unfold sort_result. f_equal. now apply Array_sort_constant. Qed.

(** The priority sort is the high todos, then the medium ones, then the low
    ones, each group in the order it had. *)
Lemma sort_result_priority (l : list Todo) :
  sort_result S_priority l
  = filter (has_priority high) l ++
    filter (has_priority medium) l ++
    filter (has_priority low) l.
Proof.
  unfold sort_result.
  induction l as [|x l IH]; [reflexivity|].
  cbn [Array_sort]. rewrite IH. clear IH.
  pose proof (Forall_filter_has_priority high l) as Hh.
  pose proof (Forall_filter_has_priority medium l) as Hm.
  pose proof (Forall_filter_has_priority low l) as Hl.
  cbn [filter]. unfold has_priority.
  destruct (priority x) eqn:Hx; cbn [Priority_eqb].
  - rewrite !app_assoc, sort_insert_skip.
    + rewrite sort_insert_front; [reflexivity|].
      eapply Forall_impl; [|exact Hl].
      intros y Hy. cbn. rewrite Hx, Hy. cbn. lia.
    + apply Forall_app. split; (eapply Forall_impl; [|eassumption]);
        intros y Hy; cbn; rewrite Hx, Hy; cbn; lia.
  - rewrite sort_insert_skip.
    + rewrite sort_insert_front; [reflexivity|].
      apply Forall_app. split; (eapply Forall_impl; [|eassumption]);
        intros y Hy; cbn; rewrite Hx, Hy; cbn; lia.
    + eapply Forall_impl; [|exact Hh].
      intros y Hy. cbn. rewrite Hx, Hy. cbn. lia.
  - rewrite sort_insert_front; [reflexivity|].
    apply Forall_forall. intros y _. cbn. rewrite Hx.
    destruct (priority y); cbn; lia.
Qed.

(** Stability: the priority sort keeps the todos of one priority in the
    order they had. *)
Lemma filter_sort_insert_priority (p : Priority) (x : Todo) (l : list Todo) :
  filter (has_priority p) (sort_insert (compareTodos S_priority) x l)
  = filter (has_priority p) (x :: l).
Proof.
  induction l as [|y l IH]; [reflexivity|].
  cbn [sort_insert].
  destruct (compareTodos S_priority x y <=? 0)%Z eqn:Hxy; [reflexivity|].
  apply Z.leb_gt in Hxy. cbn [filter] in *. rewrite IH.
  destruct (has_priority p y) eqn:Hy, (has_priority p x) eqn:Hx;
    try reflexivity.
  apply has_priority_true_iff in Hx, Hy. cbn in Hxy.
  rewrite Hx, Hy in Hxy. lia.
Qed.

Lemma filter_sort_result_priority (p : Priority) (l : list Todo) :
  filter (has_priority p) (sort_result S_priority l)
  = filter (has_priority p) l.
Proof.
  unfold sort_result. induction l as [|x l IH]; [reflexivity|].
  cbn [Array_sort]. rewrite filter_sort_insert_priority.
  cbn [filter]. now rewrite IH.
Qed.

Lemma sort_result_priority_sorted (l : list Todo) :
  StronglySorted
    (fun a b => (priorityOrder (priority a) <= priorityOrder (priority b))%Z)
    (sort_result S_priority l).
Proof.
  unfold sort_result.
  eapply StronglySorted_weaken;
    [|apply (Array_sort_sorted (compareTodos S_priority))].
  - intros a b. cbn. lia.
  - intros a b. cbn. lia.
  - intros a b c. cbn. lia.
Qed.
(** ** Sorting *)

(** C7: whatever the filters kept, the sort ["oldest"] returns it as it is
    and the sort ["newest"] returns it reversed. *)
Theorem sort_oldest_newest (todos : list Todo) (flt : FilterType)
    (q c : string) :
  let snapshot := filter_category c (filter_search q (filter_status flt todos)) in
  filteredAndSortedTodos todos flt q S_oldest c = snapshot /\
  filteredAndSortedTodos todos flt q S_newest c = rev snapshot /\
  (forall l, sort_result S_oldest l = l) /\
  (forall l, sort_result S_newest l = rev l).
Proof.
  cbv zeta. rewrite !filteredAndSortedTodos_stages.
  repeat split; auto using sort_result_oldest, sort_result_newest.
Qed.

(** C6: the sort by priority returns the high todos of the snapshot, then
    the medium ones, then the low ones, each group in snapshot order.  So a
    todo of a more urgent priority always stands before a todo of a less
    urgent one, the todos of each priority keep their relative order, and
    nothing is lost or repeated; [[A(high), B(medium), C(high)]] sorts to
    [[A, C, B]]. *)
Theorem sort_by_priority (snapshot : list Todo) :
  let r := sort_result S_priority snapshot in
  r = filter (has_priority high) snapshot ++
      filter (has_priority medium) snapshot ++
      filter (has_priority low) snapshot /\
  (forall i j a b,
     nth_error r i = Some a -> nth_error r j = Some b ->
     (priorityOrder (priority a) < priorityOrder (priority b))%Z ->
     (i < j)%nat) /\
  (forall p, filter (has_priority p) r = filter (has_priority p) snapshot) /\
  Permutation r snapshot /\
  sort_result S_priority [todoA; todoB; todoC] = [todoA; todoC; todoB].
Proof.
  intros r. subst r. repeat split.
  - apply sort_result_priority.
  - intros i j a b Hi Hj Hab.
    destruct (Nat.lt_trichotomy i j) as [H|[->|H]]; [exact H|exfalso..].
    + rewrite Hi in Hj. injection Hj as <-. lia.
    + pose proof (StronglySorted_nth _ _ (sort_result_priority_sorted snapshot)
                    j i b a H Hj Hi) as Hle.
      cbv beta in Hle. lia.
  - intros p. apply filter_sort_result_priority.
  - unfold sort_result. apply Array_sort_perm.
Qed.

(** ** The category filter *)

Lemma filter_category_all (l : list Todo) : filter_category "all" l = l.
Proof. reflexivity. Qed.

Lemma filter_category_other (v : string) (l : list Todo) :
  v <> "all" -> filter_category v l = filter (category_is v) l.
Proof.
  intros Hv. unfold filter_category.
  destruct (String.eqb_spec v "all"); [contradiction | reflexivity].
Qed.

(** C10, amended: the filter value ["all"] keeps every todo; any other value
    [v] keeps exactly the todos whose category is [v], in their order.  For
    a snapshot that holds a todo [t] of category ["all"], a filter value
    returns [t] alone exactly when the value is ["all"] and [t] is the whole
    snapshot; and as soon as the snapshot also holds a todo of another
    category, no filter value returns just the todos of category ["all"]. *)
Theorem category_filter_sentinel :
  (forall snapshot, filter_category "all" snapshot = snapshot) /\
  (forall v snapshot, v <> "all" ->
     filter_category v snapshot = filter (category_is v) snapshot /\
     forall t, In t (filter_category v snapshot) <->
               In t snapshot /\ category t = Some v) /\
  (forall snapshot t, In t snapshot -> category t = Some "all" ->
     forall v, filter_category v snapshot = [t] <->
               v = "all" /\ snapshot = [t]) /\
  (forall snapshot t t', In t snapshot -> category t = Some "all" ->
     In t' snapshot -> category t' <> Some "all" ->
     forall v, filter_category v snapshot <> filter (category_is "all") snapshot).
Proof.
  split; [exact filter_category_all|].
  split; [|split].
  - intros v snapshot Hv. rewrite (filter_category_other _ _ Hv).
    split; [reflexivity|].
    intros t. rewrite filter_In, category_is_true_iff. tauto.
  - intros snapshot t Hin Hcat v. split.
    + intros Hv. destruct (String.eqb_spec v "all") as [->|Hne].
      * now rewrite filter_category_all in Hv.
      * exfalso. rewrite (filter_category_other _ _ Hne) in Hv.
        assert (Ht : In t (filter (category_is v) snapshot))
          by (rewrite Hv; now left).
        apply filter_In in Ht. destruct Ht as [_ Ht].
        apply category_is_true_iff in Ht. congruence.
    + intros [-> ->]. apply filter_category_all.
  - intros snapshot t t' Hin Hcat Hin' Hcat' v Heq.
    destruct (String.eqb_spec v "all") as [->|Hne].
    + rewrite filter_category_all in Heq.
      rewrite Heq in Hin'. apply filter_In in Hin'.
      destruct Hin' as [_ H]. now apply category_is_true_iff in H.
    + rewrite (filter_category_other _ _ Hne) in Heq.
      assert (Ht : In t (filter (category_is v) snapshot)).
      { rewrite Heq. apply filter_In. split; [exact Hin|].
        now apply category_is_true_iff. }
      apply filter_In in Ht. destruct Ht as [_ Ht].
      apply category_is_true_iff in Ht. congruence.
Qed.
End QueryLayerFacts.

(** C10 fails as stated: when the todo of category ["all"] is the whole
    snapshot, the filter value ["all"] returns just that todo. *)
Lemma category_all_returned_alone :
  ~ (forall (snapshot : list Todo) (t : Todo),
       In t snapshot -> category t = Some "all" ->
       forall v, filter_category v snapshot <> [t]).
Proof.
  intros H.
  apply (H [todo_all] todo_all (or_introl eq_refl) eq_refl "all").
  reflexivity.
Qed.

Example category_all_whole_view :
  filteredAndSortedTodos [todo_all] F_all "" S_oldest "all" = [todo_all].
Proof. reflexivity. Qed.

Lemma category_filter_sentinel_witness :
  In todo_all [todo_all; todo_work] /\ category todo_all = Some "all" /\
  In todo_work [todo_all; todo_work] /\ category todo_work <> Some "all" /\
  "Work" <> "all" /\
  filter_category "Work" [todo_all; todo_work] = [todo_work] /\
  (forall v, filter_category v [todo_all; todo_work]
             <> filter (category_is "all") [todo_all; todo_work]).
Proof.
  assert (H1 : In todo_all [todo_all; todo_work]) by (now left).
  assert (H2 : In todo_work [todo_all; todo_work]) by (right; now left).
  assert (H3 : category todo_work <> Some "all") by discriminate.
  assert (H4 : "Work" <> "all") by discriminate.
  repeat (split; [assumption || reflexivity|]).
  destruct category_filter_sentinel as (_ & _ & _ & Hgroup).
  exact (Hgroup [todo_all; todo_work] todo_all todo_work H1 eq_refl H2 H3).
Defined.

Lemma sort_by_priority_witness :
  nth_error (sort_result S_priority [todoA; todoB; todoC]) 1 = Some todoC /\
  nth_error (sort_result S_priority [todoA; todoB; todoC]) 2 = Some todoB /\
  (priorityOrder (priority todoC) < priorityOrder (priority todoB))%Z /\
  (1 < 2)%nat.
Proof.
  repeat (split; [reflexivity|]).
  destruct (sort_by_priority [todoA; todoB; todoC]) as (_ & Hpos & _).
  exact (Hpos 1%nat 2%nat todoC todoB eq_refl eq_refl eq_refl).
Defined.

(** The search scenario: ["bob"] finds the todo whose text has it, ["home"]
    the todo whose category has it. *)
Example search_scenario :
  let buy := {| id := "1"; text := "Buy milk"; completed := false;
                priority := medium; category := Some "Home" |} in
  let call := {| id := "2"; text := "Call Bob"; completed := false;
                 priority := medium; category := None |} in
  filteredAndSortedTodos [buy; call] F_all "bob" S_oldest "all" = [call] /\
  filteredAndSortedTodos [buy; call] F_all "home" S_oldest "all" = [buy].
Proof. split; reflexivity. Qed.

(* ===================================================================== *)
(** * Updates and the order of the snapshot *)
(* ===================================================================== *)

(** C9 fails as stated, for the reason C1 does: an [id] in the payload is
    copied into the record.  After [updateTodo("a", {id: "b"})] the snapshot
    of the one-todo store lists the id ["b"] where it listed ["a"]. *)
Lemma updateTodo_changes_id_sequence :
  ~ (forall (st : MemStorage) (t : Todo) (u : UpdateTodo),
       getTodo (id t) st = Some t ->
       map id (getAllTodos (fst (updateTodo (id t) u st)))
       = map id (getAllTodos st)).
Proof.
  intros H.
  specialize (H store1 milk update_with_id eq_refl).
  discriminate H.
Qed.

(** C9, amended: an update of a stored todo moves nothing: the map lists the
    same keys in the same order, whatever the payload; and when the payload
    has no [id] property, the snapshot lists the same ids in the same order
    before and after, and so do the views sorted ["oldest"] and ["newest"]. *)
Theorem updateTodo_keeps_positions {ops : JSStringOps}
    (st : MemStorage) (t : Todo) (u : UpdateTodo) :
  getTodo (id t) st = Some t ->
  let st' := fst (updateTodo (id t) u st) in
  Map_keys (todos st') = Map_keys (todos st) /\
  List.length (getAllTodos st') = List.length (getAllTodos st) /\
  (upd_id u = None ->
     map id (getAllTodos st') = map id (getAllTodos st) /\
     map id (sort_result S_oldest (getAllTodos st'))
     = map id (sort_result S_oldest (getAllTodos st)) /\
     map id (sort_result S_newest (getAllTodos st'))
     = map id (sort_result S_newest (getAllTodos st))).
Proof.
  intros Hget st'. subst st'.
  rewrite (updateTodo_present _ u _ _ Hget). unfold getTodo in Hget.
  cbn [fst].
  assert (Hids : upd_id u = None ->
            map id (getAllTodos (set_todos (Map_set (id t) (spread t u)) st))
            = map id (getAllTodos st)).
  { intros Hu. unfold getAllTodos. simpl.
    apply Map_values_set_present with (v0 := t); [exact Hget|].
    simpl. now rewrite Hu. }
  split; [|split].
  - now apply Map_keys_set_present with t.
  - unfold getAllTodos, Map_values. simpl. rewrite !length_map.
    now apply Map_length_set_present with t.
  - intros Hu. specialize (Hids Hu). split; [|split].
    + exact Hids.
    + now rewrite !sort_result_oldest.
    + rewrite !sort_result_newest, !map_rev. now f_equal.
Qed.

Lemma updateTodo_keeps_positions_witness :
  getTodo (id milk) store2 = Some milk /\
  upd_id update_milk = None /\
  map id (getAllTodos (fst (updateTodo (id milk) update_milk store2)))
  = map id (getAllTodos store2).
Proof.
  split; [reflexivity|]. split; [reflexivity|].
  apply (updateTodo_keeps_positions store2 milk update_milk); reflexivity.
Defined.

(* ===================================================================== *)
(** * The categories in use *)
(* ===================================================================== *)

Lemma Set_has_In (x : string) (s : JsSet) : Set_has x s = true <-> In x s.
Proof.
  unfold Set_has. rewrite existsb_exists. split.
  - intros (y & Hy & Heq). apply String.eqb_eq in Heq. now subst.
  - intros H. exists x. split; [exact H | apply String.eqb_refl].
Qed.

Lemma Set_add_In (x y : string) (s : JsSet) :
  In y (Set_add x s) <-> y = x \/ In y s.
Proof.
  unfold Set_add. destruct (Set_has x s) eqn:Hx.
  - apply Set_has_In in Hx. split; [tauto | intros [->|H]; assumption].
  - rewrite in_app_iff. simpl. intuition.
Qed.

Lemma Set_add_NoDup (x : string) (s : JsSet) :
  NoDup s -> NoDup (Set_add x s).
Proof.
  intros Hs. unfold Set_add. destruct (Set_has x s) eqn:Hx; [exact Hs|].
  assert (Hnin : ~ In x s).
  { intros H. apply Set_has_In in H. congruence. }
  apply NoDup_rev in Hs. rewrite <- (rev_involutive (s ++ [x])).
  apply NoDup_rev. rewrite rev_app_distr. simpl.
  constructor; [now rewrite <- in_rev | exact Hs].
Qed.

Lemma add_category_In (c : string) (s : JsSet) (t : Todo) :
  In c (add_category s t) <-> In c s \/ (c <> "" /\ category t = Some c).
Proof.
  unfold add_category. destruct (category t) as [c'|].
  - destruct (truthy c') eqn:Hc'.
    + rewrite Set_add_In. apply truthy_true_iff in Hc'.
      split; [intros [->|H]; auto | intros [H|[_ [= ->]]]; auto].
    + split; [auto | intros [H|[Hc [= ->]]]; [exact H|]].
      apply truthy_true_iff in Hc. congruence.
  - split; [auto | intros [H|[_ H]]; [exact H | discriminate]].
Qed.

Lemma add_category_NoDup (s : JsSet) (t : Todo) :
  NoDup s -> NoDup (add_category s t).
Proof.
  unfold add_category. destruct (category t) as [c|]; [|auto].
  destruct (truthy c); auto using Set_add_NoDup.
Qed.

Lemma fold_add_category_In (c : string) (l : list Todo) (s : JsSet) :
  In c (fold_left add_category l s) <->
  In c s \/ (c <> "" /\ exists t, In t l /\ category t = Some c).
Proof.
  revert s. induction l as [|t l IH]; intros s; simpl.
  - split; [auto | intros [H|(_ & t & [] & _)]; exact H].
  - rewrite IH, add_category_In. split.
    + intros [[H|[Hc Ht]]|(Hc & t' & Hin & Ht')]; auto.
      * right. split; [exact Hc|]. exists t. auto.
      * right. split; [exact Hc|]. exists t'. auto.
    + intros [H|(Hc & t' & [<-|Hin] & Ht')]; auto.
      right. split; [exact Hc|]. exists t'. auto.
Qed.

Lemma fold_add_category_NoDup (l : list Todo) (s : JsSet) :
  NoDup s -> NoDup (fold_left add_category l s).
Proof.
  revert s. induction l as [|t l IH]; intros s Hs; simpl; [exact Hs|].
  apply IH. now apply add_category_NoDup.
Qed.

Lemma getCategories_eq (st : MemStorage) :
  getCategories st
  = Array_sort defaultCompare (fold_left add_category (getAllTodos st) Set_new).
Proof. reflexivity. Qed.

(** C3 fails as stated: the empty string is a category that is not [null],
    yet [getCategories] leaves it out.  The store holds one todo whose
    category is [""]; the method returns the empty list. *)
Lemma getCategories_drops_empty_category :
  ~ (forall (st : MemStorage) (c : string),
       In c (getCategories st) <->
       exists t, In t (getAllTodos st) /\ category t = Some c).
Proof.
  intros H.
  destruct (H store_empty_category "") as [_ Hin].
  apply Hin. eexists. split; [now left | reflexivity].
Qed.

(** C3, amended: for every state of the store, [getCategories] returns the
    category values of the stored todos that are neither [null] nor the
    empty string, each once, in strictly ascending order of code units; with
    the stored categories [["Work", "home", "Work", null]] it returns
    [["Work", "home"]]. *)
Theorem getCategories_spec (st : MemStorage) :
  (forall c, In c (getCategories st) <->
             c <> "" /\ exists t, In t (getAllTodos st) /\ category t = Some c) /\
  NoDup (getCategories st) /\
  StronglySorted (fun a b => String.compare a b = Lt) (getCategories st) /\
  map category (getAllTodos store_categories)
  = [Some "Work"; Some "home"; Some "Work"; None] /\
  getCategories store_categories = ["Work"; "home"].
Proof.
  rewrite getCategories_eq.
  assert (Hnd : NoDup (Array_sort defaultCompare
                         (fold_left add_category (getAllTodos st) Set_new))).
  { eapply Permutation_NoDup.
    - symmetry. apply Array_sort_perm.
    - apply fold_add_category_NoDup. constructor. }
  split; [|split; [|split; [|split]]].
  - intros c. rewrite Array_sort_In, fold_add_category_In.
    split; [intros [[]|H]; exact H | auto].
  - exact Hnd.
  - apply sorted_NoDup_strict; [|exact Hnd].
    apply Array_sort_sorted.
    + apply defaultCompare_total.
    + apply defaultCompare_trans.
  - reflexivity.
  - reflexivity.
Qed.

(* ===================================================================== *)
(** * More facts about [Map] *)
(* ===================================================================== *)

Section JsMapMoreFacts.
Context {V : Type}.
Implicit Types (m : Map V) (k : string) (v : V).

Lemma Map_In_get k v m : Map_wf m -> In (k, v) m -> Map_get k m = Some v.
Proof.
  unfold Map_wf.
  induction m as [|[k' v'] m IH]; simpl; intros Hwf Hin; [contradiction|].
  inversion Hwf as [|? ? Hnin Hm]; subst.
  destruct Hin as [[= -> ->]|Hin].
  - now rewrite String.eqb_refl.
  - destruct (String.eqb_spec k' k) as [->|Hne]; [|now apply IH].
    exfalso. apply Hnin. change k with (fst (k, v)). now apply in_map.
Qed.

(** A new key goes to the end. *)
Lemma Map_set_absent k v m :
  Map_get k m = None -> Map_set k v m = m ++ [(k, v)].
Proof.
  induction m as [|[k' v'] m IH]; simpl; [reflexivity|].
  destruct (String.eqb_spec k' k) as [->|Hne]; [discriminate|].
  intros H. now rewrite (IH H).
Qed.

Lemma Map_set_same k v m : Map_get k m = Some v -> Map_set k v m = m.
Proof.
  induction m as [|[k' v'] m IH]; simpl; [discriminate|].
  destruct (String.eqb_spec k' k) as [->|Hne].
  - now intros [= ->].
  - intros H. now rewrite (IH H).
Qed.

Lemma Map_set_set k v1 v2 m :
  Map_set k v2 (Map_set k v1 m) = Map_set k v2 m.
Proof.
  induction m as [|[k' v'] m IH]; simpl.
  - now rewrite String.eqb_refl.
  - destruct (String.eqb_spec k' k) as [->|Hne]; simpl.
    + now rewrite String.eqb_refl.
    + destruct (String.eqb_spec k' k); [contradiction|]. now rewrite IH.
Qed.

Lemma Map_delete_set_absent k v m :
  Map_get k m = None -> Map_delete k (Map_set k v m) = (m, true).
Proof.
  induction m as [|[k' v'] m IH]; simpl.
  - now rewrite String.eqb_refl.
  - destruct (String.eqb_spec k' k) as [->|Hne]; [discriminate|].
    intros H. simpl.
    destruct (String.eqb_spec k' k); [contradiction|]. now rewrite (IH H).
Qed.

Lemma Map_delete_false k m :
  snd (Map_delete k m) = false -> fst (Map_delete k m) = m.
Proof.
  intros H. destruct (Map_get k m) as [v|] eqn:Hget.
  - rewrite (Map_delete_present _ _ _ Hget) in H. discriminate.
  - now rewrite (Map_delete_absent _ _ Hget).
Qed.

(** Deleting a key takes its entry out and leaves the others in place. *)
Lemma Map_delete_filter k m :
  Map_wf m ->
  fst (Map_delete k m) = filter (fun e => negb (String.eqb (fst e) k)) m.
Proof.
  unfold Map_wf.
  induction m as [|[k' v'] m IH]; simpl; intros Hwf; [reflexivity|].
  inversion Hwf as [|? ? Hnin Hm]; subst.
  destruct (String.eqb_spec k' k) as [->|Hne]; simpl.
  - symmetry. apply forallb_filter_id. apply forallb_forall.
    intros [k0 v0] Hin. simpl.
    destruct (String.eqb_spec k0 k) as [->|]; [|reflexivity].
    exfalso. apply Hnin. change k with (fst (k, v0)). now apply in_map.
  - specialize (IH Hm). destruct (Map_delete k m) as [r b]. simpl in *.
    now rewrite IH.
Qed.
End JsMapMoreFacts.

(* ===================================================================== *)
(** * More about the storage engine *)
(* ===================================================================== *)

Lemma Reachable_Map_wf_witness :
  Reachable store2 /\ Map_wf (users store2) /\ Map_wf (todos store2).
Proof.
  assert (H : Reachable store2)
    by (unfold store2, store1; do 2 apply Reachable_createTodo;
        apply Reachable_new).
  split; [exact H | exact (Reachable_Map_wf store2 H)].
Defined.

Lemma map_id_values (m : Map Todo) :
  (forall k t, In (k, t) m -> id t = k) ->
  map id (Map_values m) = Map_keys m.
Proof.
  induction m as [|[k t] m IH]; simpl; intros H; [reflexivity|].
  rewrite (H k t) by now left. f_equal. apply IH.
  intros k' t' Hin. apply H. now right.
Qed.

Lemma ReachableDeclared_Store_wf (st : MemStorage) :
  ReachableDeclared st -> Store_wf st.
Proof.
  induction 1; auto using Store_wf_new, Store_wf_createUser,
    Store_wf_createTodo, Store_wf_updateTodo, Store_wf_deleteTodo.
Qed.

(** X2: in a store built by calls whose update payloads had the declared
    shape, every todo is filed under its own id: the ids of the snapshot are
    pairwise distinct, and [getTodo] of the id of a todo of the snapshot
    returns that todo. *)
Theorem ReachableDeclared_ids (st : MemStorage) :
  ReachableDeclared st ->
  NoDup (map id (getAllTodos st)) /\
  (forall t, In t (getAllTodos st) -> getTodo (id t) st = Some t) /\
  (forall i t, getTodo i st = Some t -> id t = i).
Proof.
  intros H. apply ReachableDeclared_Store_wf in H.
  destruct H as (_ & Hwf & Hid). split; [|split].
  - unfold getAllTodos. now rewrite map_id_values.
  - intros t Hin. unfold getAllTodos, Map_values in Hin.
    apply in_map_iff in Hin. destruct Hin as ([k t'] & Heq & Hin).
    simpl in Heq. subst t'. rewrite (Hid k t Hin).
    now apply Map_In_get.
  - intros i t Hget. apply Hid. now apply Map_get_In.
Qed.

Lemma ReachableDeclared_ids_witness :
  ReachableDeclared store2 /\
  NoDup (map id (getAllTodos store2)) /\
  (forall t, In t (getAllTodos store2) -> getTodo (id t) store2 = Some t) /\
  (forall i t, getTodo i store2 = Some t -> id t = i).
Proof.
  assert (H : ReachableDeclared store2)
    by (unfold store2, store1; do 2 apply Declared_createTodo;
        apply Declared_new).
  split; [exact H | exact (ReachableDeclared_ids store2 H)].
Defined.


(** X4: deleting a todo right after creating it under an unused id gives
    back the store as it was, and answers [true]. *)
Theorem createTodo_deleteTodo (uuid : string) (fields : InsertTodo) (st : MemStorage) :
  getTodo uuid st = None ->
  deleteTodo uuid (fst (createTodo uuid fields st)) = (st, true).
Proof.
  intros Hget. unfold deleteTodo, getTodo in *. simpl.
  rewrite (Map_delete_set_absent _ _ _ Hget). now destruct st.
Qed.

Lemma createTodo_deleteTodo_witness :
  getTodo "c" store2 = None /\
  deleteTodo "c" (fst (createTodo "c" (just_text "Plan") store2))
  = (store2, true).
Proof.
  split; [reflexivity|].
  apply (createTodo_deleteTodo "c" (just_text "Plan") store2). reflexivity.
Defined.

Lemma values_filter_id (x : string) (m : Map Todo) :
  (forall k t, In (k, t) m -> id t = k) ->
  Map_values (filter (fun e => negb (String.eqb (fst e) x)) m)
  = filter (fun t => negb (String.eqb (id t) x)) (Map_values m).
Proof.
  induction m as [|[k t] m IH]; simpl; intros H; [reflexivity|].
  rewrite (H k t) by now left.
  assert (IH' := IH (fun k' t' Hin => H k' t' (or_intror Hin))).
  destruct (String.eqb k x); simpl; now rewrite IH'.
Qed.

(** X5: in a store where every todo is filed under its own id,
    [deleteTodo(x)] leaves the snapshot without the todo of id [x] and with
    the others in the order they had. *)
Theorem deleteTodo_snapshot (st : MemStorage) (x : string) :
  Store_wf st ->
  getAllTodos (fst (deleteTodo x st))
  = filter (fun t => negb (String.eqb (id t) x)) (getAllTodos st).
Proof.
  intros (_ & Hwf & Hid). unfold deleteTodo, getAllTodos.
  pose proof (Map_delete_filter x (todos st) Hwf) as Hf.
  destruct (Map_delete x (todos st)) as [m b]. simpl in *. subst m.
  now apply values_filter_id.
Qed.

Lemma deleteTodo_snapshot_witness :
  Store_wf store2 /\
  getAllTodos (fst (deleteTodo "a" store2))
  = filter (fun t => negb (String.eqb (id t) "a")) (getAllTodos store2).
Proof.
  assert (H : Store_wf store2)
    by (unfold store2, store1; do 2 apply Store_wf_createTodo;
        apply Store_wf_new).
  split; [exact H | exact (deleteTodo_snapshot store2 "a" H)].
Defined.

Lemma override_later {A : Type} (old : A) (first second : option A) :
  override (override old first) second = override old (later first second).
Proof. now destruct second. Qed.

Lemma spread_spread (t : Todo) (u1 u2 : UpdateTodo) :
  spread (spread t u1) u2 = spread t (spread_updates u1 u2).
Proof. unfold spread; simpl. now rewrite !override_later. Qed.

Lemma later_same {A : Type} (a : option A) : later a a = a.
Proof. now destruct a. Qed.

(** X6: two updates of one id in a row amount to one update with the two
    payloads spread into one, the later payload winning where both have a
    key; so repeating an update changes nothing more. *)
Theorem updateTodo_twice (i : string) (u1 u2 : UpdateTodo) (st : MemStorage) :
  updateTodo i u2 (fst (updateTodo i u1 st))
  = updateTodo i (spread_updates u1 u2) st /\
  updateTodo i u1 (fst (updateTodo i u1 st)) = updateTodo i u1 st.
Proof.
  assert (H : forall v1 v2,
            updateTodo i v2 (fst (updateTodo i v1 st))
            = updateTodo i (spread_updates v1 v2) st).
  { intros v1 v2. unfold updateTodo at 2 3.
    destruct (Map_get i (todos st)) as [t|] eqn:Hget; simpl.
    - unfold updateTodo. simpl. rewrite Map_get_set_eq.
      unfold set_todos. simpl. now rewrite Map_set_set, spread_spread.
    - unfold updateTodo. now rewrite Hget. }
  split; [apply H|]. rewrite H. f_equal.
  destruct u1. unfold spread_updates. simpl. now rewrite !later_same.
Qed.

Lemma spread_same_values (t : Todo) (u : UpdateTodo) :
  (forall k, match UpdateTodo_get k u with
             | Some v => v = Todo_get k t
             | None => True
             end) ->
  spread t u = t.
Proof.
  intros H.
  pose proof (H Kid) as Hid. pose proof (H Ktext) as Htext.
  pose proof (H Kcompleted) as Hdone. pose proof (H Kpriority) as Hprio.
  pose proof (H Kcategory) as Hcat.
  destruct t, u. unfold spread. simpl in *.
  destruct upd_id0, upd_text0, upd_completed0, upd_priority0, upd_category0;
    simpl; subst; reflexivity.
Qed.

(** X7: an update that carries, under each key it has, the value the stored
    todo already has changes nothing: the store stays as it is and the
    stored todo is returned.  The empty payload is such an update, for
    every id: its result is what [getTodo] returns. *)
Theorem updateTodo_same_values (i : string) (u : UpdateTodo) (t : Todo)
    (st : MemStorage) :
  getTodo i st = Some t ->
  (forall k, match UpdateTodo_get k u with
             | Some v => v = Todo_get k t
             | None => True
             end) ->
  updateTodo i u st = (st, Some t) /\
  updateTodo i empty_update st = (st, Some t).
Proof.
  intros Hget Hu.
  assert (H : forall v, spread t v = t -> updateTodo i v st = (st, Some t)).
  { intros v Hv. rewrite (updateTodo_present _ v _ _ Hget), Hv.
    unfold getTodo in Hget. unfold set_todos.
    rewrite (Map_set_same _ _ _ Hget). now destruct st. }
  split; apply H.
  - now apply spread_same_values.
  - now destruct t.
Qed.

Lemma updateTodo_same_values_witness :
  getTodo "a" store2 = Some milk /\
  updateTodo "a" (toggleTodo_body false) store2 = (store2, Some milk) /\
  updateTodo "a" empty_update store2 = (store2, Some milk).
Proof.
  split; [reflexivity|].
  apply (updateTodo_same_values "a" (toggleTodo_body false) milk store2).
  - reflexivity.
  - intros k. destruct k; simpl; auto.
Defined.

(** ** Users *)

(** X8: after [createUser] under an unused id, [getUser] of that id returns
    the new user, and [getUserByUsername] of the new user's name returns the
    user that already had the name when there was one, the new user
    otherwise: a name in use is not refused, and the older user keeps
    answering for it. *)
Theorem createUser_lookup (uuid : string) (fields : InsertUser) (st : MemStorage) :
  getUser uuid st = None ->
  let st' := fst (createUser uuid fields st) in
  let user := snd (createUser uuid fields st) in
  getUser uuid st' = Some user /\
  username user = ins_username fields /\
  getUserByUsername (ins_username fields) st'
  = Some match getUserByUsername (ins_username fields) st with
         | Some older => older
         | None => user
         end /\
  (forall name, name <> ins_username fields ->
     getUserByUsername name st' = getUserByUsername name st).
Proof.
  intros Hget st' user. subst st' user. unfold getUser, getUserByUsername in *.
  simpl. rewrite (Map_set_absent _ _ _ Hget).
  unfold Map_values. rewrite map_app. simpl.
  split; [|split; [|split]].
  - rewrite <- (Map_set_absent _ _ _ Hget). apply Map_get_set_eq.
  - reflexivity.
  - induction (map snd (users st)) as [|u l IH]; simpl.
    + now rewrite String.eqb_refl.
    + destruct (String.eqb (username u) (ins_username fields));
        [reflexivity | exact IH].
  - intros name Hname.
    induction (map snd (users st)) as [|u l IH]; simpl.
    + destruct (String.eqb_spec (ins_username fields) name);
        [congruence | reflexivity].
    + destruct (String.eqb (username u) name); [reflexivity | exact IH].
Qed.

Lemma createUser_lookup_witness :
  getUser "u2" store_user = None /\
  getUser "u2" (fst (createUser "u2" ann_again store_user))
  = Some (snd (createUser "u2" ann_again store_user)) /\
  getUserByUsername "ann" (fst (createUser "u2" ann_again store_user))
  = getUserByUsername "ann" store_user.
Proof.
  destruct (createUser_lookup "u2" ann_again store_user eq_refl)
    as (Hid & _ & Hname & _).
  split; [reflexivity|]. split; [exact Hid | exact Hname].
Defined.

(** ** Categories *)

Lemma add_category_ext (s : JsSet) (t1 t2 : Todo) :
  category t1 = category t2 -> add_category s t1 = add_category s t2.
Proof. unfold add_category. now intros ->. Qed.

Lemma fold_add_category_ext (l1 l2 : list Todo) (s : JsSet) :
  map category l1 = map category l2 ->
  fold_left add_category l1 s = fold_left add_category l2 s.
Proof.
  revert l2 s. induction l1 as [|t1 l1 IH]; intros [|t2 l2] s H;
    try discriminate; [reflexivity|].
  simpl in *. injection H as Ht Hl.
  rewrite (add_category_ext s t1 t2 Ht). now apply IH.
Qed.

(** X9: an update whose payload has no [category] key leaves the result of
    [getCategories] as it was, whether the id is stored or not; such are the
    payloads that toggle a todo, edit its text or set its priority. *)
Theorem updateTodo_keeps_categories (i : string) (u : UpdateTodo) (st : MemStorage) :
  upd_category u = None ->
  getCategories (fst (updateTodo i u st)) = getCategories st.
Proof.
  intros Hu. unfold updateTodo.
  destruct (Map_get i (todos st)) as [t|] eqn:Hget; [|reflexivity].
  rewrite !getCategories_eq. f_equal. apply fold_add_category_ext.
  unfold getAllTodos. simpl.
  apply Map_values_set_present with (v0 := t); [exact Hget|].
  simpl. now rewrite Hu.
Qed.

Lemma updateTodo_keeps_categories_witness :
  upd_category (toggleTodo_body true) = None /\
  upd_category (editTodo_body "Report, final") = None /\
  upd_category (updatePriority_body high) = None /\
  getCategories (fst (updateTodo "1" (toggleTodo_body true) store_categories))
  = getCategories store_categories.
Proof.
  repeat (split; [reflexivity|]).
  apply (updateTodo_keeps_categories "1" (toggleTodo_body true)
           store_categories).
  reflexivity.
Defined.

Lemma String_compare_Lt_irrefl (a : string) : String.compare a a <> Lt.
Proof. now rewrite String_compare_refl. Qed.

Lemma String_compare_Lt_asym (a b : string) :
  String.compare a b = Lt -> String.compare b a <> Lt.
Proof.
  intros H. rewrite String.compare_antisym, H. discriminate.
Qed.

(** Two strictly ascending lists with the same members are one list. *)
Lemma strict_sorted_ext (l1 l2 : list string) :
  StronglySorted (fun a b => String.compare a b = Lt) l1 ->
  StronglySorted (fun a b => String.compare a b = Lt) l2 ->
  (forall x, In x l1 <-> In x l2) -> l1 = l2.
Proof.
  intros H1. revert l2.
  induction H1 as [|a l1 Hs1 IH Ha]; intros l2 H2 Hin.
  - destruct l2 as [|b l2]; [reflexivity|].
    exfalso. apply (Hin b). now left.
  - destruct H2 as [|b l2 Hs2 Hb].
    + exfalso. apply (Hin a). now left.
    + rewrite Forall_forall in Ha, Hb.
      assert (a = b).
      { destruct (proj1 (Hin a) (or_introl eq_refl)) as [Hba|Hba]; [easy|].
        destruct (proj2 (Hin b) (or_introl eq_refl)) as [Hab|Hab]; [easy|].
        exfalso. apply (String_compare_Lt_asym a b); auto. }
      subst b. f_equal. apply IH; [exact Hs2|].
      intros x. split; intros Hx.
      * destruct (proj1 (Hin x) (or_intror Hx)) as [<-|H]; [|exact H].
        exfalso. apply (String_compare_Lt_irrefl a). now apply Ha.
      * destruct (proj2 (Hin x) (or_intror Hx)) as [<-|H]; [|exact H].
        exfalso. apply (String_compare_Lt_irrefl a). now apply Hb.
Qed.

Lemma getCategories_sorted (st : MemStorage) :
  StronglySorted (fun a b => String.compare a b = Lt) (getCategories st).
Proof.
  rewrite getCategories_eq. apply sorted_NoDup_strict.
  - apply Array_sort_sorted;
      [apply defaultCompare_total | apply defaultCompare_trans].
  - eapply Permutation_NoDup; [symmetry; apply Array_sort_perm|].
    apply fold_add_category_NoDup. constructor.
Qed.

Lemma getCategories_In (st : MemStorage) (c : string) :
  In c (getCategories st) <->
  c <> "" /\ exists t, In t (getAllTodos st) /\ category t = Some c.
Proof.
  rewrite getCategories_eq, Array_sort_In, fold_add_category_In.
  split; [intros [[]|H]; exact H | auto].
Qed.

(** X10: the result of [getCategories] does not depend on the order in
    which the todos were stored: two stores whose snapshots hold the same
    todos, in any order, have the same list of categories. *)
Theorem getCategories_order_independent (st1 st2 : MemStorage) :
  Permutation (getAllTodos st1) (getAllTodos st2) ->
  getCategories st1 = getCategories st2.
Proof.
  intros Hp. apply strict_sorted_ext; try apply getCategories_sorted.
  intros c. rewrite !getCategories_In.
  split; intros (Hc & t & Hin & Ht); (split; [exact Hc|]); exists t;
    (split; [|exact Ht]).
  - now apply (Permutation_in _ Hp).
  - now apply (Permutation_in _ (Permutation_sym Hp)).
Qed.

Lemma getCategories_order_independent_witness :
  Permutation (getAllTodos store_categories)
              (getAllTodos store_categories_shuffled) /\
  getCategories store_categories = getCategories store_categories_shuffled.
Proof.
  assert (H : Permutation (getAllTodos store_categories)
                          (getAllTodos store_categories_shuffled)).
  { change (getAllTodos store_categories_shuffled)
      with (rev (getAllTodos store_categories)).
    apply Permutation_rev. }
  split; [exact H|].
  exact (getCategories_order_independent _ _ H).
Defined.

(* ===================================================================== *)
(** * The routes *)
(* ===================================================================== *)

Section RoutesFacts.
Context {B E : Type}.
Context (parseInsertTodo : B -> SafeParse E InsertTodo).
Context (parseUpdateTodo : B -> SafeParse E UpdateTodo).

Local Abbreviation handle := (app_handle parseInsertTodo parseUpdateTodo).
Local Abbreviation run := (app_run parseInsertTodo parseUpdateTodo).
Local Abbreviation POST := (post_api_todos (E := E) parseInsertTodo).
Local Abbreviation PATCH := (patch_api_todos_id (E := E) parseUpdateTodo).
Local Abbreviation GET := (get_api_todos_id (E := E)).
Local Abbreviation DELETE := (delete_api_todos_id (E := E)).

Lemma updateTodo_missing (i : string) (u : UpdateTodo) (st : MemStorage) :
  getTodo i st = None -> updateTodo i u st = (st, None).
Proof. unfold updateTodo, getTodo. now intros ->. Qed.

Lemma updateTodo_None (i : string) (u : UpdateTodo) (st : MemStorage) :
  snd (updateTodo i u st) = None -> fst (updateTodo i u st) = st.
Proof.
  unfold updateTodo. now destruct (Map_get i (todos st)).
Qed.

Lemma deleteTodo_false (i : string) (st : MemStorage) :
  snd (deleteTodo i st) = false -> fst (deleteTodo i st) = st.
Proof.
  unfold deleteTodo. pose proof (Map_delete_false i (todos st)) as H.
  destruct (Map_delete i (todos st)) as [m b]. simpl in *.
  intros Hb. rewrite (H Hb). now destruct st.
Qed.

(** X11: a request that is answered 400 or 404, and every [GET], leaves
    the store exactly as it was. *)
Theorem app_handle_unchanged (uuid : string) (req : Request B) (st : MemStorage) :
  status (snd (handle uuid req st)) = 400%Z \/
  status (snd (handle uuid req st)) = 404%Z \/
  match req with
  | GET_todos | GET_categories | GET_todo _ => True
  | _ => False
  end ->
  fst (handle uuid req st) = st.
Proof.
  destruct req as [| |i|b|i b|i]; simpl.
  - reflexivity.
  - reflexivity.
  - unfold get_api_todos_id. now destruct (getTodo i st).
  - unfold post_api_todos. destruct (parseInsertTodo b); simpl;
      [reflexivity|]. intros [H|[H|[]]]; discriminate H.
  - unfold patch_api_todos_id. destruct (parseUpdateTodo b) as [e|d]; simpl;
      [reflexivity|].
    pose proof (updateTodo_None i d st) as Hn.
    destruct (updateTodo i d st) as [st' [t|]]; simpl in *.
    + intros [H|[H|[]]]; discriminate H.
    + intros _. now apply Hn.
  - unfold delete_api_todos_id.
    pose proof (deleteTodo_false i st) as Hf.
    destruct (deleteTodo i st) as [st' [|]]; simpl in *.
    + intros [H|[H|[]]]; discriminate H.
    + intros _. now apply Hf.
Qed.

Lemma app_handle_ReachableDeclared (uuid : string) (req : Request B)
    (st : MemStorage) :
  (forall b d, parseUpdateTodo b = ParseSuccess d -> upd_id d = None) ->
  ReachableDeclared st -> ReachableDeclared (fst (handle uuid req st)).
Proof.
  intros Hparse Hst. destruct req as [| |i|b|i b|i]; simpl.
  - exact Hst.
  - exact Hst.
  - unfold get_api_todos_id. now destruct (getTodo i st).
  - unfold post_api_todos. destruct (parseInsertTodo b) as [e|d]; simpl;
      [exact Hst|]. now apply (Declared_createTodo uuid d).
  - unfold patch_api_todos_id.
    destruct (parseUpdateTodo b) as [e|d] eqn:Hb; simpl; [exact Hst|].
    pose proof (Declared_updateTodo i d st (Hparse b d Hb) Hst) as H.
    now destruct (updateTodo i d st) as [st' [t|]].
  - unfold delete_api_todos_id.
    pose proof (Declared_deleteTodo i st Hst) as H.
    now destruct (deleteTodo i st) as [st' [|]].
Qed.

(** X12: when the update schema never lets an [id] through, the store
    after any run of requests from the empty store has every todo filed
    under its own id and no id twice in the list of all todos. *)
Theorem app_run_ids (reqs : list (string * Request B)) :
  (forall b d, parseUpdateTodo b = ParseSuccess d -> upd_id d = None) ->
  Store_wf (run reqs MemStorage_new) /\
  NoDup (map id (getAllTodos (run reqs MemStorage_new))).
Proof.
  intros Hparse.
  assert (H : forall st, ReachableDeclared st -> ReachableDeclared (run reqs st)).
  { induction reqs as [|[uuid req] reqs IH]; intros st Hst; simpl;
      [exact Hst|].
    apply IH. now apply app_handle_ReachableDeclared. }
  specialize (H _ Declared_new).
  pose proof (ReachableDeclared_Store_wf _ H) as Hwf. split; [exact Hwf|].
  destruct Hwf as (_ & Hnd & Hid).
  unfold getAllTodos. now rewrite map_id_values.
Qed.

(** X13: [DELETE] on a store with no key twice answers 204 exactly when a
    todo was stored under the id and 404 exactly when none was; after it a
    [GET] of the id and a second [DELETE] are both answered 404, and the
    second [DELETE] changes nothing. *)
Theorem delete_api_contract (i : string) (st : MemStorage) :
  Map_wf (todos st) ->
  let st1 := fst (DELETE i st) in
  (status (snd (DELETE i st)) = 204%Z <-> exists t, getTodo i st = Some t) /\
  (status (snd (DELETE i st)) = 404%Z <-> getTodo i st = None) /\
  GET i st1 = (st1, mkResponse 404 (json_message "Todo not found")) /\
  DELETE i st1 = (st1, mkResponse 404 (json_message "Todo not found")).
Proof.
  intros Hwf st1.
  assert (Hgone : getTodo i st1 = None).
  { subst st1. unfold delete_api_todos_id, deleteTodo, getTodo.
    pose proof (Map_delete_get_eq i (todos st) Hwf) as H.
    now destruct (Map_delete i (todos st)) as [m [|]]. }
  assert (Hsnd : forall b, snd (Map_delete i (todos st)) = b ->
            status (snd (DELETE i st)) = if b then 204%Z else 404%Z).
  { intros b Hb. unfold delete_api_todos_id, deleteTodo.
    destruct (Map_delete i (todos st)) as [m b']. simpl in *. subst b'.
    now destruct b. }
  split; [|split; [|split]].
  - unfold getTodo. rewrite <- Map_delete_true_iff.
    rewrite (Hsnd _ eq_refl).
    destruct (snd (Map_delete i (todos st))); split; intros H; easy.
  - unfold getTodo. destruct (Map_get i (todos st)) as [t|] eqn:Hget.
    + rewrite (Hsnd true (Map_delete_present _ _ _ Hget)).
      split; intros H; discriminate H.
    + rewrite (Hsnd false); [easy|].
      now rewrite (Map_delete_absent _ _ Hget).
  - unfold get_api_todos_id. now rewrite Hgone.
  - unfold delete_api_todos_id, deleteTodo. unfold getTodo in Hgone.
    rewrite (Map_delete_absent _ _ Hgone). now rewrite set_todos_id.
Qed.

(** X14: a [POST] whose body the schema accepts is answered 201 with the
    created todo, whose id is the drawn one; a [GET] of that id right after
    is answered 200 with the same todo, and the list of all todos holds
    it. *)
Theorem post_then_get (uuid : string) (b : B) (d : InsertTodo) (st : MemStorage) :
  parseInsertTodo b = ParseSuccess d ->
  exists t,
    snd (POST uuid b st) = mkResponse 201 (json_todo t) /\
    id t = uuid /\
    GET uuid (fst (POST uuid b st))
    = (fst (POST uuid b st), mkResponse 200 (json_todo t)) /\
    In t (getAllTodos (fst (POST uuid b st))).
Proof.
  intros Hb. unfold post_api_todos. rewrite Hb.
  exists (snd (createTodo uuid d st)). simpl.
  assert (Hget : Map_get uuid (Map_set uuid (snd (createTodo uuid d st)) (todos st))
                 = Some (snd (createTodo uuid d st)))
    by apply Map_get_set_eq.
  split; [reflexivity|]. split; [reflexivity|]. split.
  - unfold get_api_todos_id, getTodo. simpl in *. now rewrite Hget.
  - unfold getAllTodos, Map_values.
    apply Map_get_In in Hget.
    apply in_map_iff. exists (uuid, snd (createTodo uuid d st)).
    split; [reflexivity | exact Hget].
Qed.

(** X15: [PATCH] checks the body before it looks the id up: it answers 400
    exactly when the schema refuses the body, 404 exactly when the body is
    accepted and nothing is stored under the id, and 200 exactly when the
    body is accepted and a todo is stored; the todo sent with 200 is the
    stored todo with the parsed payload spread over it, and a [GET] of the
    id right after returns it. *)
Theorem patch_api_contract (i : string) (b : B) (st : MemStorage) :
  (status (snd (PATCH i b st)) = 400%Z <->
   exists e, parseUpdateTodo b = ParseFailure e) /\
  (status (snd (PATCH i b st)) = 404%Z <->
   exists d, parseUpdateTodo b = ParseSuccess d /\ getTodo i st = None) /\
  (status (snd (PATCH i b st)) = 200%Z <->
   exists d t, parseUpdateTodo b = ParseSuccess d /\ getTodo i st = Some t) /\
  (forall d t, parseUpdateTodo b = ParseSuccess d -> getTodo i st = Some t ->
     snd (PATCH i b st) = mkResponse 200 (json_todo (spread t d)) /\
     GET i (fst (PATCH i b st))
     = (fst (PATCH i b st), mkResponse 200 (json_todo (spread t d)))).
Proof.
  unfold patch_api_todos_id.
  destruct (parseUpdateTodo b) as [e|d] eqn:Hb.
  - simpl. split; [|split; [|split]].
    + split; [intros _; now exists e | reflexivity].
    + split; [intros H; discriminate H | intros (d & H & _); discriminate H].
    + split; [intros H; discriminate H | intros (d & t & H & _); discriminate H].
    + intros d t H. discriminate H.
  - destruct (getTodo i st) as [t|] eqn:Hget.
    + rewrite (updateTodo_present _ d _ _ Hget). simpl.
      split; [|split; [|split]].
      * split; [intros H; discriminate H | intros (e & H); discriminate H].
      * split; [intros H; discriminate H | intros (d' & _ & H); discriminate H].
      * split; [intros _; now exists d, t | reflexivity].
      * intros d' t' [= <-] [= <-]. split; [reflexivity|].
        unfold get_api_todos_id, getTodo. simpl. now rewrite Map_get_set_eq.
    + rewrite (updateTodo_missing _ d _ Hget). simpl.
      split; [|split; [|split]].
      * split; [intros H; discriminate H | intros (e & H); discriminate H].
      * split; [intros _; now exists d | reflexivity].
      * split; [intros H; discriminate H | intros (d' & t & _ & H); discriminate H].
      * intros d' t _ H. discriminate H.
Qed.
End RoutesFacts.

Lemma app_handle_unchanged_witness :
  status (snd (app_handle sample_parseInsert sample_parseUpdate ""
                 (PATCH_todo "zzz" (UpdateBody update_milk)) store2)) = 404%Z /\
  fst (app_handle sample_parseInsert sample_parseUpdate ""
         (PATCH_todo "zzz" (UpdateBody update_milk)) store2) = store2.
Proof.
  split; [reflexivity|].
  apply (app_handle_unchanged sample_parseInsert sample_parseUpdate "").
  right; left. reflexivity.
Defined.

Lemma sample_parseUpdate_no_id (b : SampleBody) (d : UpdateTodo) :
  sample_parseUpdate b = ParseSuccess d -> upd_id d = None.
Proof. destruct b; intros [= <-]; reflexivity. Qed.

Lemma app_run_ids_witness :
  (forall b d, sample_parseUpdate b = ParseSuccess d -> upd_id d = None) /\
  Store_wf (app_run sample_parseInsert sample_parseUpdate sample_requests
              MemStorage_new) /\
  NoDup (map id (getAllTodos
                   (app_run sample_parseInsert sample_parseUpdate
                      sample_requests MemStorage_new))).
Proof.
  split; [exact sample_parseUpdate_no_id|].
  exact (app_run_ids sample_parseInsert sample_parseUpdate sample_requests
           sample_parseUpdate_no_id).
Defined.

Lemma delete_api_contract_witness :
  Map_wf (todos store2) /\
  status (snd (delete_api_todos_id (E := unit) "a" store2)) = 204%Z /\
  delete_api_todos_id (E := unit) "a"
    (fst (delete_api_todos_id (E := unit) "a" store2))
  = (fst (delete_api_todos_id (E := unit) "a" store2),
     mkResponse 404 (json_message "Todo not found")).
Proof.
  assert (Hwf : Map_wf (todos store2)).
  { unfold Map_wf. simpl. repeat constructor; simpl; intuition discriminate. }
  split; [exact Hwf|]. split; [reflexivity|].
  destruct (delete_api_contract (E := unit) "a" store2 Hwf) as (_ & _ & _ & H).
  exact H.
Defined.

Lemma post_then_get_witness :
  sample_parseInsert (InsertBody (just_text "Plan"))
  = ParseSuccess (just_text "Plan") /\
  exists t,
    snd (post_api_todos sample_parseInsert "c"
           (InsertBody (just_text "Plan")) store2)
    = mkResponse 201 (json_todo t) /\
    id t = "c" /\
    get_api_todos_id (E := unit) "c"
      (fst (post_api_todos sample_parseInsert "c"
              (InsertBody (just_text "Plan")) store2))
    = (fst (post_api_todos sample_parseInsert "c"
              (InsertBody (just_text "Plan")) store2),
       mkResponse 200 (json_todo t)) /\
    In t (getAllTodos
            (fst (post_api_todos sample_parseInsert "c"
                    (InsertBody (just_text "Plan")) store2))).
Proof.
  split; [reflexivity|].
  apply (post_then_get sample_parseInsert "c" (InsertBody (just_text "Plan"))
           (just_text "Plan") store2).
  reflexivity.
Defined.

Lemma patch_api_contract_witness :
  sample_parseUpdate (UpdateBody update_with_id)
  = ParseSuccess (updateTodoSchema update_with_id) /\
  getTodo "a" store2 = Some milk /\
  snd (patch_api_todos_id sample_parseUpdate "a"
         (UpdateBody update_with_id) store2)
  = mkResponse 200 (json_todo (spread milk (updateTodoSchema update_with_id))).
Proof.
  split; [reflexivity|]. split; [reflexivity|].
  destruct (patch_api_contract sample_parseUpdate "a"
              (UpdateBody update_with_id) store2) as (_ & _ & _ & H).
  exact (proj1 (H _ milk eq_refl eq_refl)).
Defined.

(* ===================================================================== *)
(** * The page: what is shown *)
(* ===================================================================== *)

Lemma filter_split_perm {A : Type} (f : A -> bool) (l : list A) :
  Permutation (filter (fun x => negb (f x)) l ++ filter f l) l.
Proof.
  induction l as [|x l IH]; simpl; [constructor|].
  destruct (f x); simpl.
  - symmetry. apply Permutation_cons_app. now symmetry.
  - now constructor.
Qed.

Lemma filter_split_length {A : Type} (f : A -> bool) (l : list A) :
  (List.length (filter (fun x => negb (f x)) l) + List.length (filter f l)
   = List.length l)%nat.
Proof.
  rewrite <- length_app. apply Permutation_length, filter_split_perm.
Qed.

Lemma filter_all {A : Type} (f : A -> bool) (l : list A) :
  (forall x, In x l -> f x = true) -> filter f l = l.
Proof.
  intros H. apply forallb_filter_id. now apply forallb_forall.
Qed.

Lemma filter_none {A : Type} (f : A -> bool) (l : list A) :
  (forall x, In x l -> f x = false) -> filter f l = [].
Proof.
  induction l as [|x l IH]; simpl; intros H; [reflexivity|].
  rewrite (H x) by now left. apply IH. intros y Hy. apply H. now right.
Qed.

Lemma TodoList_items (todos : list Todo) (m : option string) :
  items_of (TodoList todos m)
  = filter (fun t => negb (completed t)) todos ++
    filter (fun t => completed t) todos.
Proof.
  unfold TodoList. destruct todos as [|t todos]; reflexivity.
Qed.

(** X16: [TodoList] shows the empty state exactly when it is given no todo;
    otherwise it shows every todo it is given, once, the todos that are not
    completed above the completed ones, each group in the order given. *)
Theorem TodoList_order (todos : list Todo) (m : option string) :
  ((exists title subtitle, TodoList todos m = EmptyState title subtitle)
   <-> todos = []) /\
  items_of (TodoList todos m)
  = filter (fun t => negb (completed t)) todos ++
    filter (fun t => completed t) todos /\
  Permutation (items_of (TodoList todos m)) todos /\
  (forall i j a b,
     nth_error (items_of (TodoList todos m)) i = Some a ->
     nth_error (items_of (TodoList todos m)) j = Some b ->
     completed a = false -> completed b = true -> (i < j)%nat).
Proof.
  split; [|split; [|split]].
  - unfold TodoList. destruct todos as [|t todos]; simpl.
    + split; [reflexivity | intros _; eauto].
    + split; [intros (? & ? & H); discriminate H | discriminate].
  - apply TodoList_items.
  - rewrite TodoList_items. apply filter_split_perm.
  - rewrite TodoList_items. intros i j a b Hi Hj Ha Hb.
    set (l1 := filter (fun t => negb (completed t)) todos) in *.
    set (l2 := filter (fun t => completed t) todos) in *.
    assert (Hi' : (i < List.length l1)%nat).
    { destruct (Nat.lt_ge_cases i (List.length l1)) as [H|H]; [exact H|].
      rewrite (nth_error_app2 _ _ H) in Hi. apply nth_error_In in Hi.
      apply filter_In in Hi. destruct Hi as [_ Hi]. congruence. }
    destruct (Nat.lt_ge_cases j (List.length l1)) as [H|H]; [|lia].
    rewrite (nth_error_app1 _ _ H) in Hj. apply nth_error_In in Hj.
    apply filter_In in Hj. destruct Hj as [_ Hj]. rewrite Hb in Hj.
    discriminate Hj.
Qed.

Lemma TodoList_order_witness :
  nth_error (items_of (TodoList [todoA; todoB] None)) 0 = Some todoA /\
  nth_error (items_of (TodoList [todoA; todoB] None)) 1 = Some todoB /\
  completed todoA = false /\
  Permutation (items_of (TodoList [todoA; todoB] None)) [todoA; todoB].
Proof.
  repeat (split; [reflexivity|]).
  destruct (TodoList_order [todoA; todoB] None) as (_ & _ & H & _).
  exact H.
Defined.

(** X17: the counter is hidden exactly when there is no todo; when shown,
    its total is the number of todos, its done count the size of the
    "completed" tab, and the difference it prints as active the size of the
    "active" tab, none of them touched by the search or category filter. *)
Theorem TaskCounter_counts (todos : list Todo) (flt : FilterType) :
  (TaskCounter todos flt = None <-> todos = []) /\
  (forall v, TaskCounter todos flt = Some v ->
     shown_total v = Z.of_nat (List.length todos) /\
     shown_completed v
     = Z.of_nat (List.length (filter_status F_completed todos)) /\
     (shown_total v - shown_completed v)%Z
     = Z.of_nat (List.length (filter_status F_active todos)) /\
     (flt = F_active ->
      filterLabel v
      = (Number_toString
           (Z.of_nat (List.length (filter_status F_active todos)))
         ++ " active")%string)).
Proof.
  pose proof (filter_split_length (fun t => completed t) todos) as Hlen.
  unfold TaskCounter, filter_status. split.
  - destruct todos as [|t todos]; [now split|].
    cbn [List.length]. rewrite Nat2Z.inj_succ.
    destruct (Z.eqb_spec (Z.succ (Z.of_nat (List.length todos))) 0);
      [lia|]. split; discriminate.
  - intros v.
    destruct (Z.of_nat (List.length todos) =? 0)%Z; [discriminate|].
    intros [= <-]. cbn [shown_total shown_completed filterLabel].
    assert (Hact : (Z.of_nat (List.length todos)
                    - Z.of_nat (List.length (filter (fun t => completed t) todos)))%Z
                   = Z.of_nat (List.length
                                 (filter (fun t => negb (completed t)) todos)))
      by lia.
    repeat split; try exact Hact.
    intros ->. now rewrite Hact.
Qed.

Lemma TaskCounter_counts_witness :
  TaskCounter [todoA; todoB] F_active
  = Some {| filterLabel := "2 active"; shown_completed := 0;
            shown_total := 2 |} /\
  Z.of_nat (List.length (filter_status F_active [todoA; todoB])) = 2%Z.
Proof.
  split; [reflexivity|].
  destruct (TaskCounter_counts [todoA; todoB] F_active) as [_ H].
  destruct (H _ eq_refl) as (_ & _ & Hact & _). exact (eq_sym Hact).
Defined.

Section HomePageFacts.
Context {ops : JSStringOps}.

Lemma sort_result_perm (sortBy : SortType) (l : list Todo) :
  Permutation (sort_result sortBy l) l.
Proof.
  unfold sort_result.
  pose proof (Array_sort_perm (compareTodos sortBy) l) as H.
  destruct sortBy; try exact H.
  rewrite <- H at 2. symmetry. apply Permutation_rev.
Qed.

Lemma filter_status_In (flt : FilterType) (l : list Todo) (t : Todo) :
  In t (filter_status flt l) <->
  In t l /\ (flt = F_active -> completed t = false) /\
  (flt = F_completed -> completed t = true).
Proof.
  destruct flt; simpl; rewrite ?filter_In.
  - split; [intros H; repeat split; [exact H|discriminate..] | tauto].
  - rewrite negb_true_iff.
    split; [intros [H1 H2]; repeat split; auto; discriminate
           | intros (H1 & H2 & _); auto].
  - split; [intros [H1 H2]; repeat split; auto; discriminate
           | intros (H1 & _ & H2); auto].
Qed.

Lemma filter_search_In (q : string) (l : list Todo) (t : Todo) :
  In t (filter_search q l) <->
  In t l /\
  (truthy (trim q) = true ->
   (includes (toLowerCase (text t)) (toLowerCase q) ||
    match category t with
    | Some c => truthy c && includes (toLowerCase c) (toLowerCase q)
    | None => false
    end) = true).
Proof.
  unfold filter_search. destruct (truthy (trim q)).
  - rewrite filter_In. tauto.
  - split; [intros H; split; [exact H | discriminate] | tauto].
Qed.

Lemma filter_category_In (c : string) (l : list Todo) (t : Todo) :
  In t (filter_category c l) <->
  In t l /\ (c <> "all" -> category t = Some c).
Proof.
  unfold filter_category. destruct (String.eqb_spec c "all") as [->|Hne]; simpl.
  - split; [intros H; split; [exact H | congruence] | tauto].
  - rewrite filter_In, category_is_true_iff. tauto.
Qed.

(** X18: whatever the sort, the view holds exactly the todos of the
    snapshot that pass the status filter, the search (when the query is not
    blank) and the category filter (when it is not ["all"]), each as often
    as the snapshot holds it: sorting adds, drops and repeats nothing. *)
Theorem view_members (todos : list Todo) (flt : FilterType) (q : string)
    (sortBy : SortType) (c : string) :
  Permutation (filteredAndSortedTodos todos flt q sortBy c)
              (filter_category c (filter_search q (filter_status flt todos))) /\
  (forall t,
     In t (filteredAndSortedTodos todos flt q sortBy c) <->
     In t todos /\
     (flt = F_active -> completed t = false) /\
     (flt = F_completed -> completed t = true) /\
     (truthy (trim q) = true ->
      (includes (toLowerCase (text t)) (toLowerCase q) ||
       match category t with
       | Some c' => truthy c' && includes (toLowerCase c') (toLowerCase q)
       | None => false
       end) = true) /\
     (c <> "all" -> category t = Some c)).
Proof.
  rewrite filteredAndSortedTodos_stages.
  split; [apply sort_result_perm|].
  intros t. split.
  - intros H. apply (Permutation_in _ (sort_result_perm _ _)) in H.
    apply filter_category_In in H. destruct H as [H Hc].
    apply filter_search_In in H. destruct H as [H Hq].
    apply filter_status_In in H. tauto.
  - intros (Hin & Ha & Hd & Hq & Hc).
    apply (Permutation_in _ (Permutation_sym (sort_result_perm _ _))).
    apply filter_category_In. split; [|exact Hc].
    apply filter_search_In. split; [|exact Hq].
    apply filter_status_In. tauto.
Qed.

(** X19: the alphabetical sort, for a [localeCompare] that is a consistent
    comparator, returns the todos in ascending order of their texts, todos
    whose texts compare equal in the order they had. *)
Theorem sort_alphabetical (l : list Todo) :
  Consistent (compareTodos S_alphabetical) ->
  StronglySorted (fun a b => (localeCompare (text a) (text b) <= 0)%Z)
                 (sort_result S_alphabetical l) /\
  Permutation (sort_result S_alphabetical l) l /\
  (forall z,
     filter (fun t => (localeCompare (text z) (text t) =? 0)%Z)
            (sort_result S_alphabetical l)
     = filter (fun t => (localeCompare (text z) (text t) =? 0)%Z) l).
Proof.
  intros Hc. split; [|split].
  - apply (Array_sort_sorted_consistent _ Hc).
  - apply sort_result_perm.
  - intros z. apply (Array_sort_stable _ Hc z).
Qed.

(** X20: under the "active" or the "completed" tab the list on screen is
    the sorted view itself; under "all" it is the sorted view with the todos
    that are not completed moved above the completed ones. *)
Theorem Home_TodoList_items (todos : list Todo) (flt : FilterType) (q : string)
    (sortBy : SortType) (c : string) :
  items_of (Home_TodoList todos flt q sortBy c)
  = filter (fun t => negb (completed t))
           (filteredAndSortedTodos todos flt q sortBy c) ++
    filter (fun t => completed t)
           (filteredAndSortedTodos todos flt q sortBy c) /\
  (flt <> F_all ->
   items_of (Home_TodoList todos flt q sortBy c)
   = filteredAndSortedTodos todos flt q sortBy c).
Proof.
  unfold Home_TodoList. split; [apply TodoList_items|].
  intros Hflt. rewrite TodoList_items.
  set (view := filteredAndSortedTodos todos flt q sortBy c).
  assert (Hview : forall t, In t view ->
            (flt = F_active -> completed t = false) /\
            (flt = F_completed -> completed t = true)).
  { intros t Ht. subst view. rewrite filteredAndSortedTodos_stages in Ht.
    apply (Permutation_in _ (sort_result_perm _ _)) in Ht.
    apply filter_category_In in Ht. destruct Ht as [Ht _].
    apply filter_search_In in Ht. destruct Ht as [Ht _].
    apply filter_status_In in Ht. tauto. }
  destruct flt; [contradiction | |].
  - rewrite (filter_all (fun t => negb (completed t)) view),
            (filter_none (fun t => completed t) view).
    + apply app_nil_r.
    + intros t Ht. now apply Hview.
    + intros t Ht. apply negb_true_iff. now apply Hview.
  - rewrite (filter_none (fun t => negb (completed t)) view),
            (filter_all (fun t => completed t) view).
    + reflexivity.
    + intros t Ht. now apply Hview.
    + intros t Ht. apply negb_false_iff. now apply Hview.
Qed.

(** X21: the empty state blames the filters exactly when one is set: with a
    blank search, the "all" tab and the category filter ["all"] it reads "No
    tasks yet" and "Add one to get started!"; otherwise its second line is
    "Try adjusting your filters", and its first line names the search when
    the search is not blank, else the tab when it is not "all", else the
    category. *)
Theorem empty_state_message (q : string) (flt : FilterType) (c : string) :
  (getEmptyMessage q flt c = None <->
   truthy (trim q) = false /\ flt = F_all /\ c = "all") /\
  (getEmptyMessage q flt c = None ->
   TodoList [] (getEmptyMessage q flt c)
   = EmptyState "No tasks yet" "Add one to get started!") /\
  (forall title, getEmptyMessage q flt c = Some title ->
   TodoList [] (getEmptyMessage q flt c)
   = EmptyState title "Try adjusting your filters") /\
  (truthy (trim q) = true ->
   getEmptyMessage q flt c = Some "No tasks match your search") /\
  (truthy (trim q) = false -> flt = F_active ->
   getEmptyMessage q flt c = Some "No active tasks") /\
  (truthy (trim q) = false -> flt = F_completed ->
   getEmptyMessage q flt c = Some "No completed tasks").
Proof.
  unfold getEmptyMessage.
  destruct (truthy (trim q)) eqn:Hq.
  - repeat split; try discriminate; try reflexivity.
    + intros (H & _). discriminate H.
    + now intros title [= <-].
  - destruct flt.
    + destruct (String.eqb_spec c "all") as [->|Hne]; simpl.
      * repeat split; try discriminate; try reflexivity.
      * repeat split; try discriminate; try reflexivity.
        -- intros (_ & _ & H). contradiction.
        -- now intros title [= <-].
    + repeat split; try discriminate; try reflexivity.
      * intros (_ & H & _). discriminate H.
      * now intros title [= <-].
    + repeat split; try discriminate; try reflexivity.
      * intros (_ & H & _). discriminate H.
      * now intros title [= <-].
Qed.

(** X22: the todo created from a submitted add form has the trimmed text,
    is not completed, has the chosen priority, and has a category that is
    never the empty string: a blank category is sent as [null]; so every
    category such a todo has is listed by [getCategories]. *)
Theorem submitted_todo (data : AddTaskForm) (uuid : string) (st : MemStorage) :
  let st' := fst (createTodo uuid (submitted_body data) st) in
  let t := snd (createTodo uuid (submitted_body data) st) in
  text t = trim (form_text data) /\
  completed t = false /\
  priority t = form_priority data /\
  category t <> Some "" /\
  (forall c, category t = Some c -> In c (getCategories st')).
Proof.
  intros st' t.
  assert (Hcat : category t <> Some "").
  { subst t. unfold submitted_body, onSubmit, addTodo_body. simpl.
    destruct (option_map trim (form_category data)) as [s|]; simpl;
      [|discriminate].
    destruct s; simpl; discriminate. }
  repeat split; try exact Hcat.
  intros c Hc. apply getCategories_In. split; [congruence|].
  exists t. split; [|exact Hc].
  subst st' t. unfold getAllTodos, Map_values.
  apply in_map_iff. eexists (uuid, _). split; [reflexivity|].
  simpl. apply Map_get_In, Map_get_set_eq.
Qed.
End HomePageFacts.

(** X23: every category that [getCategories] lists, other than ["all"],
    selects at least one todo of the snapshot when chosen as the category
    filter, and only todos of that category. *)
Theorem category_option_selects (st : MemStorage) (c : string) :
  In c (getCategories st) -> c <> "all" ->
  filter_category c (getAllTodos st) <> [] /\
  Forall (fun t => category t = Some c) (filter_category c (getAllTodos st)).
Proof.
  intros Hin Hc. apply getCategories_In in Hin.
  destruct Hin as (_ & t & Ht & Hcat).
  rewrite (filter_category_other _ _ Hc). split.
  - intros Hnil.
    assert (H : In t (filter (category_is c) (getAllTodos st)))
      by (apply filter_In; split; [exact Ht | now apply category_is_true_iff]).
    now rewrite Hnil in H.
  - apply Forall_forall. intros t' H. apply filter_In in H.
    now apply category_is_true_iff.
Qed.

Lemma view_members_witness :
  In todoC [todoA; todoB; todoC] /\
  In todoC (filteredAndSortedTodos [todoA; todoB; todoC] F_active "" S_newest
              "all").
Proof.
  split; [simpl; tauto|].
  apply (view_members [todoA; todoB; todoC] F_active "" S_newest "all").
  repeat split; try discriminate; simpl; tauto.
Defined.

Lemma ascii_alphabetical_Consistent :
  Consistent (compareTodos (ops := ascii_ops) S_alphabetical).
Proof.
  destruct defaultCompare_Consistent as [Hr Hf Ht].
  split; cbn.
  - intros a. apply Hr.
  - intros a b. apply Hf.
  - intros a b c. apply Ht.
Qed.

Lemma sort_alphabetical_witness :
  Consistent (compareTodos (ops := ascii_ops) S_alphabetical) /\
  StronglySorted (fun a b => (localeCompare (text a) (text b) <= 0)%Z)
                 (sort_result S_alphabetical [todoC; todoA; todoB]) /\
  sort_result S_alphabetical [todoC; todoA; todoB] = [todoA; todoB; todoC].
Proof.
  split; [exact ascii_alphabetical_Consistent|].
  split; [|reflexivity].
  exact (proj1 (sort_alphabetical [todoC; todoA; todoB]
                  ascii_alphabetical_Consistent)).
Defined.

Lemma Home_TodoList_items_witness :
  F_completed <> F_all /\
  items_of (Home_TodoList [todoD; todoA; todoB] F_completed "" S_priority "all")
  = filteredAndSortedTodos [todoD; todoA; todoB] F_completed "" S_priority "all".
Proof.
  split; [discriminate|].
  apply (Home_TodoList_items [todoD; todoA; todoB] F_completed "" S_priority
           "all").
  discriminate.
Defined.

(** Under the "all" tab the list on screen can differ from the sorted view:
    a completed todo of high priority is sorted first and shown last. *)
Example Home_TodoList_regroups :
  filteredAndSortedTodos [todoD; todoA; todoB] F_all "" S_priority "all"
  = [todoD; todoA; todoB] /\
  items_of (Home_TodoList [todoD; todoA; todoB] F_all "" S_priority "all")
  = [todoA; todoB; todoD].
Proof. split; reflexivity. Qed.

Lemma empty_state_message_witness :
  truthy (trim "milk") = true /\
  getEmptyMessage "milk" F_active "Work" = Some "No tasks match your search" /\
  TodoList [] (getEmptyMessage "milk" F_active "Work")
  = EmptyState "No tasks match your search" "Try adjusting your filters".
Proof.
  split; [reflexivity|].
  destruct (empty_state_message "milk" F_active "Work")
    as (_ & _ & Hsub & Hq & _).
  split; [exact (Hq eq_refl) | exact (Hsub _ (Hq eq_refl))].
Defined.

Lemma submitted_todo_witness :
  category (snd (createTodo "c" (submitted_body sample_form_home) store2))
  = Some "Home" /\
  category (snd (createTodo "c" (submitted_body sample_form) store2)) = None /\
  In "Home"
     (getCategories (fst (createTodo "c" (submitted_body sample_form_home)
                            store2))).
Proof.
  split; [reflexivity|]. split; [reflexivity|].
  destruct (submitted_todo sample_form_home "c" store2) as (_ & _ & _ & _ & H).
  exact (H "Home" eq_refl).
Defined.

Lemma category_option_selects_witness :
  In "Work" (getCategories store_categories) /\
  "Work" <> "all" /\
  filter_category "Work" (getAllTodos store_categories) <> [].
Proof.
  assert (H1 : In "Work" (getCategories store_categories)) by (now left).
  assert (H2 : "Work" <> "all") by discriminate.
  split; [exact H1|]. split; [exact H2|].
  exact (proj1 (category_option_selects store_categories "Work" H1 H2)).
Defined.
